(** * minitorch autodiff: central difference, topological sort,
      backpropagation and the forward-pass Context

    A shallow embedding of [minitorch/autodiff.py], followed by the module
    tree of [minitorch/module.py].

    - Python values of type [Any] that carry derivatives are elements of an
      abstract type [D] with the operations the code applies to them.
    - The [Variable] protocol is a type class over the type of nodes.
    - [marked] is a [gset Z] of unique ids, [derivatives] a [gmap Z D].
    - The recursion of [dfs] is bounded by a fuel argument; the graph being
      acyclic is what makes some amount of fuel sufficient.
    - Calls to [accumulate_derivative] and [chain_rule] are recorded in a
      trace of events, the observable effect of [backpropagate]. *)

From stdpp Require Import gmap list strings.
From Stdlib Require Qcanon Field PrimFloat.

#[local] Set Warnings "-clear-no-such-hyp".
#[local] Set Warnings "-register-all".
#[local] Set Warnings "-inexact-float".

(** ** A for-loop whose body may raise *)

Fixpoint for_each {S A : Type} (body : S → A → option S) (s : S) (l : list A)
  : option S :=
  match l with
  | [] => Some s
  | x :: l' =>
      match body s x with
      | Some s' => for_each body s' l'
      | None => None
      end
  end.

(** ** Task 1.1: central difference *)

Module CentralDifference.
Section central_difference.
Context {V : Type}.
(** [x + y], [x - y], [x / y], the literal [2], and the test [x == 0]
    that makes [/] raise ZeroDivisionError. *)
Context (fadd fsub fdiv : V → V → V) (two : V) (is_zero : V → bool).

(** Python's resolution of a list index: negative indices count from the
    end, anything else out of range raises IndexError. *)
Definition py_index (len : nat) (i : Z) : option nat :=
  if decide (0 ≤ i < Z.of_nat len)%Z then Some (Z.to_nat i)
  else if decide (- Z.of_nat len ≤ i < 0)%Z then Some (Z.to_nat (Z.of_nat len + i))
  else None.

(** [l[arg] = g(l[arg])], as in [l[arg] -= h]. *)
Definition list_modify (l : list V) (arg : Z) (g : V → V) : option (list V) :=
  i ← py_index (length l) arg;
  x ← l !! i;
  Some (<[i := g x]> l).

Definition central_difference (f : list V → V) (vals : list V)
    (arg : Z) (epsilon : V) : option V :=
  left_vals ← list_modify vals arg (λ x, fsub x (fdiv epsilon two));
  right_vals ← list_modify vals arg (λ x, fadd x (fdiv epsilon two));
  let delta := fsub (f right_vals) (f left_vals) in
  if is_zero epsilon then None else Some (fdiv delta epsilon).
End central_difference.
End CentralDifference.

(** ** The Variable protocol (class [Variable] of the source) *)

Class VariableProtocol (node D : Type) := {
  unique_id : node → Z;
  is_leaf : node → bool;
  is_constant : node → bool;
  parents : node → list node;
  chain_rule : node → D → list (node * D);
}.

(** The two calls [backpropagate] makes on a variable. *)
Inductive event (node D : Type) :=
  | AccumulateDerivative (v : node) (x : D)
  | ChainRule (v : node) (d_output : D).
Arguments AccumulateDerivative {node D} v x.
Arguments ChainRule {node D} v d_output.

Section autodiff.
Context {node D : Type} {G : VariableProtocol node D}.
(** The integer [0] of the dict comprehension and [+=]. *)
Context (zero : D) (add : D → D → D).

(** *** topological_sort *)

(** The state of the traversal: [marked] and [result]. *)
Fixpoint dfs (fuel : nat) (st : gset Z * list node) (v : node)
  : option (gset Z * list node) :=
  match fuel with
  | O => None
  | S fuel' =>
      if is_constant v then Some st
      else
        let st1 := ({[unique_id v]} ∪ st.1, st.2) in
        st2 ← for_each
                (λ s w, if decide (unique_id w ∈ s.1) then Some s
                        else dfs fuel' s w)
                st1 (parents v);
        Some (st2.1, st2.2 ++ [v])
  end.

Definition topological_sort (fuel : nat) (variable : node) : option (list node) :=
  st ← dfs fuel (∅, []) variable;
  Some (reverse st.2).

(** *** backpropagate *)

(** The body of the loop over [var.chain_rule(d_output)]. *)
Definition add_contribution (derivatives : gmap Z D) (pd : node * D) : gmap Z D :=
  let '(parent_var, deriv) := pd in
  if is_constant parent_var then derivatives
  else
    match derivatives !! unique_id parent_var with
    | Some old => <[unique_id parent_var := add old deriv]> derivatives
    | None => <[unique_id parent_var := deriv]> derivatives
    end.

Definition fan_out (derivatives : gmap Z D) (pairs : list (node * D)) : gmap Z D :=
  foldl add_contribution derivatives pairs.

(** The body of the loop over [ordered_vars]; a missing key raises. *)
Definition backprop_step (st : gmap Z D * list (event node D)) (var : node)
  : option (gmap Z D * list (event node D)) :=
  let '(derivatives, trace) := st in
  if is_leaf var then
    x ← derivatives !! unique_id var;
    Some (derivatives, trace ++ [AccumulateDerivative var x])
  else
    d_output ← derivatives !! unique_id var;
    Some (fan_out derivatives (chain_rule var d_output),
          trace ++ [ChainRule var d_output]).

(** [{var.unique_id: 0 for var in ordered_vars}] followed by
    [derivatives[variable.unique_id] = deriv]. *)
Definition init_derivatives (ordered_vars : list node) (variable : node)
    (deriv : D) : gmap Z D :=
  <[unique_id variable := deriv]>
    (foldl (λ m var, <[unique_id var := zero]> m) ∅ ordered_vars).

Definition backprop_loop (ordered_vars : list node) (variable : node) (deriv : D)
  : option (gmap Z D * list (event node D)) :=
  for_each backprop_step (init_derivatives ordered_vars variable deriv, [])
           ordered_vars.

Definition backpropagate (fuel : nat) (variable : node) (deriv : D)
  : option (list (event node D)) :=
  ordered_vars ← topological_sort fuel variable;
  st ← backprop_loop ordered_vars variable deriv;
  Some st.2.
End autodiff.

(** ** Graph notions used to state the properties *)

Section graph.
Context {node D : Type} {G : VariableProtocol node D}.

(** [edge v w]: [w] is one of the parents of [v]. *)
Definition edge (v w : node) : Prop := w ∈ parents v.

(** [w] is reachable from [v] through the parent relation. *)
Definition reachable : relation node := rtc edge.

(** No infinite chain [v], a parent of [v], a parent of that one, ...:
    for a finite graph this is the absence of cycles. *)
Definition acyclic : Prop := well_founded (λ w v : node, edge v w).

(** Every unique id belongs to one node. *)
Definition unique_ids : Prop := ∀ u v : node, unique_id u = unique_id v → u = v.

(** The data-model invariant: a constant has no parents. *)
Definition constants_have_no_parents : Prop :=
  ∀ c : node, is_constant c = true → parents c = [].

(** [chain_rule] only returns pairs for parents of the node. *)
Definition chain_rule_on_parents : Prop :=
  ∀ (v p : node) (d x : D), (p, x) ∈ chain_rule v d → p ∈ parents v.

(** The reachable non-constant subgraph: [reach output v] when [v] is
    reached from [output] along parents, all nodes on the way, [output]
    and [v] included, being non-constant. *)
Inductive reach (output : node) : node → Prop :=
  | reach_output : is_constant output = false → reach output output
  | reach_parent u w :
      reach output u → w ∈ parents u → is_constant w = false → reach output w.

(** A post-order: every non-constant parent of an element occurs earlier. *)
Definition postorder (R : list node) : Prop :=
  ∀ i u w, R !! i = Some u → w ∈ parents u → is_constant w = false →
    ∃ j, j < i ∧ R !! j = Some w.

(** The invariant of the traversal state. *)
Record dfs_inv (st : gset Z * list node) : Prop := {
  inv_marked : ∀ u, u ∈ st.2 → unique_id u ∈ st.1;
  inv_nodup : NoDup st.2;
  inv_nonconst : ∀ u, u ∈ st.2 → is_constant u = false;
  inv_post : postorder st.2;
}.

(** Every marked node reachable from [v] is already in the result: none of
    the calls in progress is on a node above [v]. *)
Definition finished_above (st : gset Z * list node) (v : node) : Prop :=
  ∀ s, unique_id s ∈ st.1 → reachable v s → s ∈ st.2.

(** What a call [dfs(v)] on an unmarked non-constant node does to the state. *)
Definition dfs_post (v : node) (st st' : gset Z * list node) : Prop :=
  ∃ new,
    st'.2 = st.2 ++ new ++ [v] ∧
    (∀ k, k ∈ st'.1 ↔ (k ∈ st.1 ∨ (∃ x, x ∈ new ++ [v] ∧ k = unique_id x))) ∧
    (∀ x, x ∈ new ++ [v] → reach v x ∧ unique_id x ∉ st.1) ∧
    dfs_inv st'.

(** The state [s] inside the loop over the parents of [v], entered from
    [st0]: [v] is marked, and the nodes appended so far are new, above [v]
    and marked. *)
Definition loop_inv (v : node) (st0 s : gset Z * list node) : Prop :=
  ∃ new,
    s.2 = st0.2 ++ new ∧
    (∀ k, k ∈ s.1 ↔
       (k = unique_id v ∨ k ∈ st0.1 ∨ (∃ x, x ∈ new ∧ k = unique_id x))) ∧
    (∀ x, x ∈ new → reach v x ∧ (unique_id x ∉ st0.1) ∧ x ≠ v).
End graph.

(** ** Notions used to state the properties of backpropagate *)

Section totals.
Context {node D : Type} {G : VariableProtocol node D}.
Context (zero : D) (add : D → D → D).

(** The call made on [var] when its running total is [d]. *)
Definition event_of (var : node) (d : D) : event node D :=
  if is_leaf var then AccumulateDerivative var d else ChainRule var d.

(** The contributions that a list of pairs returned by [chain_rule] directs
    at the key [k], in order: those of the non-constant parents of id [k]. *)
Definition contributions_of (k : Z) (pairs : list (node * D)) : list D :=
  omap (λ pd : node * D,
          if is_constant pd.1 then None
          else if decide (unique_id pd.1 = k) then Some pd.2 else None)
       pairs.

Definition event_contributions (k : Z) (e : event node D) : list D :=
  match e with
  | AccumulateDerivative _ _ => []
  | ChainRule v d => contributions_of k (chain_rule v d)
  end.

(** All contributions directed at [k] by the calls of a trace. *)
Definition contributions (k : Z) (trace : list (event node D)) : list D :=
  concat (event_contributions k <$> trace).

(** The entry of a key that started as [init] and received [cs], one [+=]
    after the other; a missing entry is created by the first contribution. *)
Definition total_of (init : option D) (cs : list D) : option D :=
  match init with
  | Some i => Some (foldl add i cs)
  | None =>
      match cs with
      | [] => None
      | c :: cs' => Some (foldl add c cs')
      end
  end.
End totals.

(** ** The two graphs of the testable properties *)

Section shapes.
Context {node D : Type} {G : VariableProtocol node D}.
Context (mul : D → D → D).

(** [leaf -> op1 -> op2 -> output]: [h] is the result of [op1] on [leaf],
    [output] the result of [op2] on [h]; [op_i] multiplies the incoming
    derivative by [g_i]. *)
Record linear_chain (leaf h output : node) (g1 g2 : D) : Prop := {
  chain_ids :
    unique_id h ≠ unique_id output ∧ unique_id leaf ≠ unique_id output ∧
    unique_id leaf ≠ unique_id h;
  chain_nonconst :
    is_constant leaf = false ∧ is_constant h = false ∧ is_constant output = false;
  chain_leaf : is_leaf leaf = true ∧ is_leaf h = false ∧ is_leaf output = false;
  chain_parents : parents output = [h] ∧ parents h = [leaf] ∧ parents leaf = [];
  chain_rule_output : ∀ x, chain_rule output x = [(h, mul x g2)];
  chain_rule_h : ∀ x, chain_rule h x = [(leaf, mul x g1)];
}.

(** [leaf] is the parent of [a] and of [b], and [output = a + b]; the two
    operations contribute [fa d] and [fb d] to [leaf] for an incoming
    derivative [d]. *)
Record diamond (leaf a b output : node) (fa fb : D → D) : Prop := {
  diamond_ids :
    unique_id a ≠ unique_id output ∧ unique_id b ≠ unique_id output ∧
    unique_id leaf ≠ unique_id output ∧ unique_id a ≠ unique_id b ∧
    unique_id leaf ≠ unique_id a ∧ unique_id leaf ≠ unique_id b;
  diamond_nonconst :
    is_constant leaf = false ∧ is_constant a = false ∧
    is_constant b = false ∧ is_constant output = false;
  diamond_leaf :
    is_leaf leaf = true ∧ is_leaf a = false ∧ is_leaf b = false ∧
    is_leaf output = false;
  diamond_parents :
    parents output = [a; b] ∧ parents a = [leaf] ∧ parents b = [leaf] ∧
    parents leaf = [];
  diamond_rule_output : ∀ x, chain_rule output x = [(a, x); (b, x)];
  diamond_rule_a : ∀ x, chain_rule a x = [(leaf, fa x)];
  diamond_rule_b : ∀ x, chain_rule b x = [(leaf, fb x)];
}.
End shapes.

(** ** Example graphs over integers *)

Module Examples.
(** [0] is a leaf [x], [1 = op1(x)], [2 = op2(1)] the output, with local
    derivatives [5] and [7]; every other node is a constant. *)
Definition chain_graph : VariableProtocol nat Z := {|
  unique_id n := (Z.of_nat n + 1)%Z;
  is_leaf n := bool_decide (n = 0);
  is_constant n := bool_decide (3 ≤ n);
  parents n := match n with 1 => [0] | 2 => [1] | _ => [] end;
  chain_rule n d :=
    match n with
    | 1 => [(0, (d * 5)%Z)]
    | 2 => [(1, (d * 7)%Z)]
    | _ => []
    end;
|}.

(** [0] is a leaf [x], [1 = f(x)], [2 = g(x)], [3 = 1 + 2] the output, with
    local derivatives [2] and [3]; every other node is a constant. *)
Definition diamond_graph : VariableProtocol nat Z := {|
  unique_id n := (Z.of_nat n + 1)%Z;
  is_leaf n := bool_decide (n = 0);
  is_constant n := bool_decide (4 ≤ n);
  parents n := match n with 1 => [0] | 2 => [0] | 3 => [1; 2] | _ => [] end;
  chain_rule n d :=
    match n with
    | 1 => [(0, (d * 2)%Z)]
    | 2 => [(0, (d * 3)%Z)]
    | 3 => [(1, d); (2, d)]
    | _ => []
    end;
|}.

(** [2 = op(0, 1)] where [1] is a constant that reports the parent [3],
    a leaf: a graph outside the data-model invariant. *)
Definition detached_graph : VariableProtocol nat Z := {|
  unique_id n := (Z.of_nat n + 1)%Z;
  is_leaf n := bool_decide (n = 0 ∨ n = 3);
  is_constant n := bool_decide (n = 1 ∨ 4 ≤ n);
  parents n := match n with 1 => [3] | 2 => [0; 1] | _ => [] end;
  chain_rule n d :=
    match n with
    | 2 => [(0, d); (1, d)]
    | _ => []
    end;
|}.

(** [0 = op(1, 2)] where [1] and [2] are constants: the output of an
    operation on two constants; every other node is a constant too. *)
Definition constant_parents_graph : VariableProtocol nat Z := {|
  unique_id n := (Z.of_nat n + 1)%Z;
  is_leaf n := false;
  is_constant n := bool_decide (1 ≤ n);
  parents n := match n with 0 => [1; 2] | _ => [] end;
  chain_rule n d :=
    match n with
    | 0 => [(1, (d * 2)%Z); (2, (d * 3)%Z)]
    | _ => []
    end;
|}.
End Examples.

(** ** An example graph over binary64 floats *)

Module FloatExamples.
Import PrimFloat.

(** The chain of [Examples.chain_graph] with Python's floats as derivative
    values: [0] is a leaf [x], [1 = op1(x)], [2 = op2(1)] the output, with
    local derivatives [5.0] and [7.0]. *)
Definition float_chain_graph : VariableProtocol nat float := {|
  unique_id n := (Z.of_nat n + 1)%Z;
  is_leaf n := bool_decide (n = 0);
  is_constant n := bool_decide (3 ≤ n);
  parents n := match n with 1 => [0] | 2 => [1] | _ => [] end;
  chain_rule n d :=
    match n with
    | 1 => [(0, (d * 5)%float)]
    | 2 => [(1, (d * 7)%float)]
    | _ => []
    end;
|}.
End FloatExamples.

(** ** Context *)

Record Context (V : Type) := mkContext {
  no_grad : bool;
  saved_values : list V;
}.
Arguments mkContext {V} no_grad saved_values.
Arguments no_grad {V} c.
Arguments saved_values {V} c.

Section context.
Context {V : Type}.

(** The generated constructor, with the defaults of the two fields. *)
Definition Context_init (ng : option bool) (sv : option (list V)) : Context V :=
  mkContext (default false ng) (default [] sv).

Definition save_for_backward (self : Context V) (values : list V) : Context V :=
  if no_grad self then self
  else mkContext (no_grad self) values.

Definition saved_tensors (self : Context V) : list V := saved_values self.
End context.

(** ** Further notions: finite graphs and the nodes of a trace *)

Section finite_graph.
Context {node D : Type} {G : VariableProtocol node D}.

(** [nodes] contains the parents of each of its nodes. *)
Definition closed_under_parents (nodes : list node) : Prop :=
  ∀ v w : node, v ∈ nodes → w ∈ parents v → w ∈ nodes.

(** The ids that occur in a list of nodes. *)
Definition ids_of (nodes : list node) : gset Z :=
  list_to_set (unique_id <$> nodes).

(** The part of [dfs_inv] that holds whether or not ids are unique. *)
Record marked_inv (st : gset Z * list node) : Prop := {
  minv_marked : ∀ u, u ∈ st.2 → unique_id u ∈ st.1;
  minv_nodup : NoDup (unique_id <$> st.2);
  minv_nonconst : ∀ u, u ∈ st.2 → is_constant u = false;
}.

(** The node on which a call of the trace is made. *)
Definition event_node (e : event node D) : node :=
  match e with
  | AccumulateDerivative v _ => v
  | ChainRule v _ => v
  end.
End finite_graph.

Module CyclicExample.
(** [0] and [1] are each other's parent; every other node is a constant. *)
Definition cycle_graph : VariableProtocol nat Z := {|
  unique_id n := (Z.of_nat n + 1)%Z;
  is_leaf n := false;
  is_constant n := bool_decide (2 ≤ n);
  parents n := match n with 0 => [1] | 1 => [0] | _ => [] end;
  chain_rule n d := match n with 0 => [(1, d)] | 1 => [(0, d)] | _ => [] end;
|}.
End CyclicExample.

(** ** central_difference over the rationals *)

Module RationalDifference.
Import Qcanon.

(** The test [x == 0] on a rational. *)
Definition Qc_is_zero (x : Qc) : bool := bool_decide (x = 0%Qc).

(** [a*y*y + b*y + c] in the argument [y] at position [i]. *)
Definition quadratic (a b c : Qc) (i : nat) (args : list Qc) : Qc :=
  let y := default 0%Qc (args !! i) in
  (a * y * y + b * y + c)%Qc.
End RationalDifference.

(** ** module.py: Parameter and Module *)

(** Python dicts keep the order of insertion; assigning to a key that is
    present keeps its place. *)
Fixpoint dict_get {A : Type} (d : list (string * A)) (k : string) : option A :=
  match d with
  | [] => None
  | (k', v) :: d' => if decide (k' = k) then Some v else dict_get d' k
  end.

Fixpoint dict_set {A : Type} (d : list (string * A)) (k : string) (v : A)
  : list (string * A) :=
  match d with
  | [] => [(k, v)]
  | (k', v') :: d' =>
      if decide (k' = k) then (k, v) :: d' else (k', v') :: dict_set d' k v
  end.

Module ModuleTree.
Section parameter.
Context {V : Type}.
(** What the value passed to a Parameter offers: whether it has a
    [requires_grad_] method, what [requires_grad_(True)] and the assignment
    of [name] make of it. *)
Context (has_requires_grad_ : V → bool) (requires_grad_ : V → V)
        (set_name : V → string → V).

(** Class [Parameter]. *)
Record PyParameter := mkParameter {
  value : V;
  name : option string;
}.

(** [if self.name:] on an optional string. *)
Definition truthy (name : option string) : bool :=
  match name with
  | Some n => bool_decide (n ≠ "")
  | None => false
  end.

(** What [__init__] and [update] do with the value [x] under [name]. *)
Definition adopt (x : V) (name : option string) : V :=
  if has_requires_grad_ x then
    let x1 := requires_grad_ x in
    match name with
    | Some n => if truthy name then set_name x1 n else x1
    | None => x1
    end
  else x.


Definition update (self : PyParameter) (x : V) : PyParameter :=
  mkParameter (adopt x (name self)) (name self).
End parameter.
Arguments PyParameter V : clear implicits.

Section module.
Context {P : Type}.

(** Class [Module]: the name of its class, the two dicts and the mode. The
    submodules are the values held by [_modules]: a tree, in which no module
    object sits in two places. *)
Inductive PyModule := mkModule {
  class_name : string;
  _modules : list (string * PyModule);
  _parameters : list (string * P);
  training : bool;
}.

Definition modules (self : PyModule) : list PyModule := (_modules self).*2.

Fixpoint train (self : PyModule) : PyModule :=
  if decide (length (modules self) = 0) then
    mkModule (class_name self) (_modules self) (_parameters self) true
  else
    mkModule (class_name self)
      ((λ kx : string * PyModule, (kx.1, train kx.2)) <$> _modules self)
      (_parameters self) true.

Fixpoint eval (self : PyModule) : PyModule :=
  if decide (length (modules self) = 0) then
    mkModule (class_name self) (_modules self) (_parameters self) false
  else
    mkModule (class_name self)
      ((λ kx : string * PyModule, (kx.1, eval kx.2)) <$> _modules self)
      (_parameters self) false.

Fixpoint named_parameters (self : PyModule) : list (string * P) :=
  if decide (length (_modules self) = 0) then _parameters self
  else
    _parameters self ++
    mjoin ((λ nm : string * PyModule,
              (λ np : string * P, (nm.1 +:+ "." +:+ np.1, np.2))
                <$> named_parameters nm.2)
             <$> _modules self).

Fixpoint parameters (self : PyModule) : list P :=
  if decide (length (_modules self) = 0) then (_parameters self).*2
  else
    (_parameters self).*2 ++
    mjoin ((λ nm : string * PyModule, parameters nm.2) <$> _modules self).

(** The value assigned by [__setattr__], in the two cases that touch the
    dicts. *)
Inductive attr_value :=
  | AParameter (p : P)
  | AModule (m : PyModule).

Definition setattr (self : PyModule) (key : string) (val : attr_value) : PyModule :=
  match val with
  | AParameter p =>
      mkModule (class_name self) (_modules self)
               (dict_set (_parameters self) key p) (training self)
  | AModule m =>
      mkModule (class_name self) (dict_set (_modules self) key m)
               (_parameters self) (training self)
  end.

(** [__getattr__]: [None] is Python's [None]. *)
Definition getattr (self : PyModule) (key : string) : option attr_value :=
  match dict_get (_parameters self) key with
  | Some p => Some (AParameter p)
  | None =>
      match dict_get (_modules self) key with
      | Some m => Some (AModule m)
      | None => None
      end
  end.

(** The module itself and all its descendants, parents first. *)
Fixpoint descendants (self : PyModule) : list PyModule :=
  self :: mjoin ((λ nm : string * PyModule, descendants nm.2) <$> _modules self).

(** The keys of the dicts of a module and of its descendants. *)
Fixpoint all_keys (self : PyModule) : list string :=
  (_parameters self).*1 ++ (_modules self).*1 ++
  mjoin ((λ nm : string * PyModule, all_keys nm.2) <$> _modules self).

(** Every dict of the tree has a key at most once. *)
Fixpoint dicts_ok (self : PyModule) : Prop :=
  NoDup (_parameters self).*1 ∧ NoDup (_modules self).*1 ∧
  foldr (λ (nm : string * PyModule) (acc : Prop), dicts_ok nm.2 ∧ acc)
        True (_modules self).
End module.
Arguments PyModule P : clear implicits.
Arguments attr_value P : clear implicits.

Section add_parameter.
Context {V : Type}.
Context (has_requires_grad_ : V → bool) (requires_grad_ : V → V)
        (set_name : V → string → V).

End add_parameter.

(** *** __repr__ *)

(** The characters [\n] and space, the string ["\n"] and
    [numSpaces * " "]. *)
Definition newline_char : Ascii.ascii := Ascii.ascii_of_nat 10.
Definition space_char : Ascii.ascii := Ascii.ascii_of_nat 32.

Definition newline : string := String newline_char EmptyString.

Fixpoint spaces (n : nat) : string :=
  match n with
  | O => ""
  | S n' => String space_char (spaces n')
  end.

(** [s.split("\n")]: never empty. *)
Fixpoint split_lines (s : string) : list string :=
  match s with
  | EmptyString => [""]
  | String c s' =>
      if decide (c = newline_char) then "" :: split_lines s'
      else
        match split_lines s' with
        | line :: rest => String c line :: rest
        | [] => [String c ""]
        end
  end.

(** [sep.join(lines)]. *)
Fixpoint join (sep : string) (lines : list string) : string :=
  match lines with
  | [] => ""
  | [line] => line
  | line :: rest => line +:+ sep +:+ join sep rest
  end.

Definition _addindent (s_ : string) (numSpaces : nat) : string :=
  let s2 := split_lines s_ in
  if decide (length s2 = 1) then s_
  else
    match s2 with
    | first :: s2' =>
        let s2'' := (λ line, spaces numSpaces +:+ line) <$> s2' in
        let s := join newline s2'' in
        first +:+ newline +:+ s
    | [] => s_
    end.

Fixpoint repr {P : Type} (self : PyModule P) : string :=
  if decide (length (_modules self) = 0) then class_name self +:+ "()"
  else
    let child_lines :=
      (λ km : string * PyModule P,
         "(" +:+ km.1 +:+ "): " +:+ _addindent (repr km.2) 2)
        <$> _modules self in
    let main_str := class_name self +:+ "(" in
    let main_str :=
      if decide (child_lines = []) then main_str
      else main_str +:+ (newline +:+ "  ") +:+ join (newline +:+ "  ") child_lines
             +:+ newline in
    main_str +:+ ")".

(** The number of newline characters of a string. *)
Fixpoint newlines (s : string) : nat :=
  match s with
  | EmptyString => 0
  | String c s' => (if decide (c = newline_char) then 1 else 0) + newlines s'
  end.

(** [s] with [n] spaces put after each of its newline characters. *)
Fixpoint indent_after_newlines (n : nat) (s : string) : string :=
  match s with
  | EmptyString => ""
  | String c s' =>
      if decide (c = newline_char)
      then String c (spaces n +:+ indent_after_newlines n s')
      else String c (indent_after_newlines n s')
  end.

(** *** Notions used to state the properties of the module tree *)

(** The tree with the mode of every module set to [b]. *)
Fixpoint with_mode {P : Type} (b : bool) (self : PyModule P) : PyModule P :=
  mkModule (class_name self)
    ((λ kx : string * PyModule P, (kx.1, with_mode b kx.2)) <$> _modules self)
    (_parameters self) b.

(** The string contains the character [.]. *)
Fixpoint has_dot (s : string) : bool :=
  match s with
  | EmptyString => false
  | String c s' => bool_decide (c = Ascii.ascii_of_nat 46) || has_dot s'
  end.

(** The class names and the keys of the submodules hold no newline. *)
Fixpoint names_ok {P : Type} (self : PyModule P) : Prop :=
  newlines (class_name self) = 0 ∧
  foldr (λ (km : string * PyModule P) (acc : Prop),
           newlines km.1 = 0 ∧ names_ok km.2 ∧ acc)
        True (_modules self).

(** Induction on the tree of modules. *)
Fixpoint PyModule_tree_ind {P : Type} (Q : PyModule P → Prop)
    (step : ∀ n ms ps t, Forall (λ km, Q km.2) ms → Q (mkModule n ms ps t))
    (self : PyModule P) : Q self :=
  match self as s return Q s with
  | mkModule n ms ps t =>
      step n ms ps t
        ((fix go (ms : list (string * PyModule P)) : Forall (λ km, Q km.2) ms :=
            match ms as l return Forall (λ km, Q km.2) l with
            | [] => @List.Forall_nil _ (λ km, Q km.2)
            | km :: ms' =>
                @List.Forall_cons _ (λ km, Q km.2) km ms'
                  (PyModule_tree_ind Q step km.2) (go ms')
            end) ms)
  end.
End ModuleTree.

Module ModuleExamples.
Import ModuleTree.

(** [A(p1, a = B(p2), b = C())], all in eval mode. *)
Definition tree : PyModule nat :=
  mkModule "A"
    [("a", mkModule "B" [] [("p2", 2)] false); ("b", mkModule "C" [] [] false)]
    [("p1", 1)] false.
End ModuleExamples.

(** * Proofs *)

(** ** The for-loop *)

Lemma for_each_weaken {S A : Type} (f g : S → A → option S) (l : list A) (s s' : S) :
  (∀ t x t', x ∈ l → f t x = Some t' → g t x = Some t') →
  for_each f s l = Some s' → for_each g s l = Some s'.
Proof.
  revert s. induction l as [|x l IH]; intros s Hfg; simpl; [done|].
  destruct (f s x) as [t|] eqn:Hf; [|done].
  rewrite (Hfg s x t); [|left|done].
  apply IH. intros ????. apply Hfg. by right.
Qed.

Lemma for_each_is_Some {S A : Type} (f : S → A → option S) (l : list A) (s : S) :
  (∀ t x, x ∈ l → is_Some (f t x)) → is_Some (for_each f s l).
Proof.
  revert s. induction l as [|x l IH]; intros s Hf; simpl; [by eexists|].
  destruct (Hf s x) as [t ->]; [left|].
  apply IH. intros ???. apply Hf. by right.
Qed.

Lemma for_each_cons {S A : Type} (f : S → A → option S) (x : A) (l : list A) (s : S) :
  for_each f s (x :: l) = s1 ← f s x; for_each f s1 l.
Proof. done. Qed.

Lemma for_each_app {S A : Type} (f : S → A → option S) (l1 l2 : list A) (s : S) :
  for_each f s (l1 ++ l2) = s1 ← for_each f s l1; for_each f s1 l2.
Proof.
  revert s. induction l1 as [|x l1 IH]; intros s; simpl; [done|].
  destruct (f s x); [apply IH|done].
Qed.

(** ** topological_sort: termination *)

Section dfs_fuel.
Context {node D : Type} {G : VariableProtocol node D}.

Lemma dfs_constant (fuel : nat) (st : gset Z * list node) (v : node) :
  is_constant v = true → dfs (S fuel) st v = Some st.
Proof. intros Hc. simpl. by rewrite Hc. Qed.

Lemma dfs_constant_inv (fuel : nat) (st st' : gset Z * list node) (v : node) :
  is_constant v = true → dfs fuel st v = Some st' → st' = st.
Proof. destruct fuel; simpl; [done|]. intros ->. congruence. Qed.

Lemma dfs_mono (fuel fuel' : nat) (st st' : gset Z * list node) (v : node) :
  fuel ≤ fuel' → dfs fuel st v = Some st' → dfs fuel' st v = Some st'.
Proof.
  revert fuel' st st' v. induction fuel as [|fuel IH]; intros fuel' st st' v Hle; [done|].
  destruct fuel' as [|fuel']; [lia|]. simpl.
  destruct (is_constant v); [done|].
  destruct (for_each _ _ (parents v)) as [st2|] eqn:Hloop; [|done].
  intros Hst'. erewrite for_each_weaken; [exact Hst'| |exact Hloop].
  intros t x t' _. simpl. case_decide; [done|]. apply IH. lia.
Qed.

Lemma dfs_total :
  acyclic → ∀ v : node, ∃ n, ∀ st, is_Some (dfs n st v).
Proof.
  intros Hwf v. induction (Hwf v) as [v _ IH].
  assert (∃ N, ∀ w, w ∈ parents v → ∀ st, is_Some (dfs N st w)) as [N HN].
  { unfold edge in IH. induction (parents v) as [|w ws IHws].
    - exists 0. by intros ? ?%elem_of_nil.
    - destruct IHws as [N HN]; [intros; apply IH; by right|].
      destruct (IH w) as [n Hn]; [left|].
      exists (n `max` N). intros w' [->|Hw']%elem_of_cons st.
      + destruct (Hn st) as [st' Hst']. exists st'.
        eapply dfs_mono; [|done]. lia.
      + destruct (HN w' Hw' st) as [st' Hst']. exists st'.
        eapply dfs_mono; [|done]. lia. }
  exists (S N). intros st. simpl.
  destruct (is_constant v); [by eexists|].
  destruct (for_each_is_Some
    (λ s w, if decide (unique_id w ∈ s.1) then Some s else dfs N s w)
    (parents v) ({[unique_id v]} ∪ st.1, st.2)) as [st2 ->]; [|by eexists].
  intros t x Hx. simpl. case_decide; [by eexists|]. by apply HN.
Qed.
Lemma dfs_S (fuel : nat) (st : gset Z * list node) (v : node) :
  dfs (S fuel) st v
  = if is_constant v then Some st
    else
      st2 ← for_each
              (λ s w, if decide (unique_id w ∈ s.1) then Some s else dfs fuel s w)
              ({[unique_id v]} ∪ st.1, st.2) (parents v);
      Some (st2.1, st2.2 ++ [v]).
Proof. done. Qed.

Lemma topological_sort_mono (fuel fuel' : nat) (v : node) (order : list node) :
  fuel ≤ fuel' → topological_sort fuel v = Some order →
  topological_sort fuel' v = Some order.
Proof.
  unfold topological_sort. intros Hle.
  destruct (dfs fuel (∅, []) v) as [st|] eqn:Hdfs; [|done].
  by rewrite (dfs_mono fuel fuel' _ st v Hle Hdfs).
Qed.

End dfs_fuel.

(** One call of [dfs] on a non-constant node whose parents are known. *)
Ltac dfs_enter Hconst Hparents :=
  rewrite dfs_S, Hconst, Hparents; cbn [for_each mbind option_bind fst snd].

(** ** topological_sort: the traversal invariant *)

Section dfs_correct.
Context {node D : Type} {G : VariableProtocol node D}.
Hypothesis Hinj : unique_ids.
Hypothesis Hwf : acyclic.

Lemma no_cycle (v w : node) : w ∈ parents v → reachable w v → False.
Proof.
  revert w. induction (Hwf v) as [v _ IH]. intros w Hw Hpath.
  apply rtc_inv in Hpath as [->|(w1 & Hw1 & Hpath)].
  - by apply (IH v Hw v Hw).
  - apply (IH w Hw w1 Hw1). by eapply rtc_r.
Qed.

Lemma reach_nonconst (output v : node) : reach output v → is_constant v = false.
Proof. by destruct 1. Qed.

Lemma reach_trans (output u v : node) : reach output u → reach u v → reach output v.
Proof. intros Hu. induction 1; [done|]. by eapply reach_parent. Qed.

Lemma reach_reachable (output v : node) : reach output v → reachable output v.
Proof. induction 1; [done|]. by eapply rtc_r. Qed.

Lemma postorder_app_one (R : list node) (v : node) :
  postorder R →
  (∀ w, w ∈ parents v → is_constant w = false → w ∈ R) →
  postorder (R ++ [v]).
Proof.
  intros HR Hv i u w Hi Hw Hc.
  destruct (decide (i < length R)) as [Hlt|Hge].
  - rewrite lookup_app_l in Hi by done.
    destruct (HR i u w Hi Hw Hc) as (j & Hj & Hjw).
    exists j. split; [done|]. rewrite lookup_app_l; [done|lia].
  - rewrite lookup_app_r in Hi by lia.
    apply list_lookup_singleton_Some in Hi as [Hi ->].
    apply Hv in Hw; [|done].
    apply list_elem_of_lookup in Hw as [j Hj].
    exists j. pose proof (lookup_lt_Some _ _ _ Hj).
    split; [lia|]. by rewrite lookup_app_l.
Qed.

(** The loop over the parents of [v], for any [rec] that behaves on the
    parents as [dfs] is specified to. *)
Lemma dfs_loop (rec : gset Z * list node → node → option (gset Z * list node))
    (v : node) (st0 : gset Z * list node) :
  is_constant v = false →
  finished_above st0 v →
  (∀ s w s', w ∈ parents v → rec s w = Some s' →
     (is_constant w = true → s' = s) ∧
     (is_constant w = false → unique_id w ∉ s.1 → dfs_inv s →
      finished_above s w → dfs_post w s s')) →
  ∀ ws s s',
    (∀ w, w ∈ ws → w ∈ parents v) →
    for_each (λ s w, if decide (unique_id w ∈ s.1) then Some s else rec s w) s ws
      = Some s' →
    loop_inv v st0 s → dfs_inv s →
    loop_inv v st0 s' ∧ dfs_inv s' ∧
    (∃ more, s'.2 = s.2 ++ more) ∧
    (∀ w, w ∈ ws → is_constant w = false → w ∈ s'.2).
Proof.
  intros Hv Hfin Hrec ws.
  induction ws as [|w ws IH]; intros s s' Hws Hloop Hs Hinv; simpl in Hloop.
  { injection Hloop as <-. split_and!; [done..| |].
    - exists []. by rewrite app_nil_r.
    - by intros ? ?%elem_of_nil. }
  assert (w ∈ parents v) as Hw by (apply Hws; left).
  assert (∀ w', w' ∈ ws → w' ∈ parents v) as Hws' by (intros; apply Hws; by right).
  assert (finished_above s w) as Hfin_w.
  { destruct Hs as (new & HsR & HsM & Hnew).
    intros x [Hx|[Hx|(y & Hy & Hx)]]%HsM Hpath.
    - apply Hinj in Hx as ->. by destruct (no_cycle v w).
    - rewrite HsR. apply elem_of_app. left. apply Hfin; [done|].
      by eapply rtc_l.
    - apply Hinj in Hx as ->. rewrite HsR. apply elem_of_app. by right. }
  case_decide as Hmarked.
  - (* [w] is marked: it is skipped *)
    destruct (IH s s' Hws' Hloop Hs Hinv) as (Hs' & Hinv' & [more Hmore] & Hin).
    split_and!; [done..|by exists more|].
    intros w' [->|Hw']%elem_of_cons Hc; [|by apply Hin].
    rewrite Hmore. apply elem_of_app. left. by apply Hfin_w.
  - (* [w] is not marked: [dfs(w)] *)
    destruct (rec s w) as [s1|] eqn:Hcall; [|done].
    destruct (Hrec s w s1 Hw Hcall) as [Hconst Hpost].
    destruct (is_constant w) eqn:Hc.
    + rewrite (Hconst eq_refl) in Hloop.
      destruct (IH s s' Hws' Hloop Hs Hinv) as (Hs' & Hinv' & Hmore & Hin).
      split_and!; [done..|].
      intros w' [->|Hw']%elem_of_cons Hc'; [congruence|by apply Hin].
    + destruct (Hpost eq_refl Hmarked Hinv Hfin_w)
        as (new_w & HR1 & HM1 & Hnew_w & Hinv1).
      destruct Hs as (new & HsR & HsM & Hnew).
      assert (loop_inv v st0 s1) as Hs1.
      { exists (new ++ new_w ++ [w]). split_and!.
        - by rewrite HR1, HsR, <-app_assoc.
        - intros k. rewrite HM1, HsM. clear. split.
          + intros [[?|[?|(x & Hx & ?)]]|(x & Hx & ?)];
              [by left|by right; left|right; right; exists x..];
              (split; [apply elem_of_app; auto|done]).
          + intros [?|[?|(x & [Hx|Hx]%elem_of_app & ?)]];
              [left; by left|left; right; by left|left; right; right|right];
              by exists x.
        - intros x [Hx|Hx]%elem_of_app; [by apply Hnew|].
          destruct (Hnew_w x Hx) as [Hreach Hfresh]. split_and!.
          + eapply reach_trans; [|done].
            eapply reach_parent; [by apply reach_output|done..].
          + intros Hx0. apply Hfresh, HsM. auto.
          + intros ->. apply Hfresh, HsM. auto. }
      destruct (IH s1 s' Hws' Hloop Hs1 Hinv1) as (Hs' & Hinv' & [more Hmore] & Hin).
      split_and!; [done..| |].
      * exists (new_w ++ [w] ++ more). by rewrite Hmore, HR1, <-!app_assoc.
      * intros w' [->|Hw']%elem_of_cons Hc'; [|by apply Hin].
        rewrite Hmore, HR1, !elem_of_app, list_elem_of_singleton. auto.
Qed.

Lemma dfs_spec (fuel : nat) (st st' : gset Z * list node) (v : node) :
  dfs fuel st v = Some st' →
  is_constant v = false → unique_id v ∉ st.1 → dfs_inv st → finished_above st v →
  dfs_post v st st'.
Proof.
  revert st st' v. induction fuel as [|fuel IH]; intros st st' v; simpl; [done|].
  intros Hdfs Hv Hvm Hinv Hfin. rewrite Hv in Hdfs.
  destruct (for_each _ _ (parents v)) as [s2|] eqn:Hloop; [|done].
  simpl in Hdfs. injection Hdfs as <-.
  edestruct (dfs_loop (dfs fuel) v st Hv Hfin) as (Hs2 & Hinv2 & _ & Hin);
    [|by intros w Hw|exact Hloop| | |].
  - intros s w s' Hw Hcall. split.
    + intros Hc. by eapply dfs_constant_inv.
    + intros. by eapply IH.
  - exists []. simpl. rewrite app_nil_r. split_and!; [done| |by intros ? ?%elem_of_nil].
    intros k. rewrite elem_of_union, elem_of_singleton.
    split; [|intros [?|[?|(?&?%elem_of_nil&?)]]]; tauto.
  - destruct Hinv as [HM HND HC HP]. split; simpl; [|done..].
    intros u Hu. apply elem_of_union. right. by apply HM.
  - destruct Hs2 as (new & HR2 & HM2 & Hnew).
    destruct Hinv2 as [HM HND HC HP].
    assert (v ∉ s2.2) as Hv2.
    { rewrite HR2. intros [Hin0|Hin1]%elem_of_app.
      - apply Hvm. by apply (inv_marked _ Hinv).
      - by destruct (Hnew v Hin1) as (_ & _ & []). }
    exists new. simpl. split_and!.
    + by rewrite HR2, <-app_assoc.
    + intros k. rewrite HM2. clear. split.
      * intros [?|[?|(x & Hx & ?)]]; [right; exists v|by left|right; exists x];
          (split; [apply elem_of_app; rewrite list_elem_of_singleton; auto|done]).
      * intros [?|(x & [Hx| ->%list_elem_of_singleton]%elem_of_app & ?)];
          [right; by left|right; right; by exists x|by left].
    + intros x [Hx| ->%list_elem_of_singleton]%elem_of_app.
      * destruct (Hnew x Hx) as (? & ? & ?). done.
      * split; [by apply reach_output|done].
    + split; simpl.
      * intros u [Hu| ->%list_elem_of_singleton]%elem_of_app; [by apply HM|].
        apply HM2. by left.
      * apply NoDup_app. split_and!; [done| |apply NoDup_singleton].
        intros x Hx ->%list_elem_of_singleton. done.
      * intros u [Hu| ->%list_elem_of_singleton]%elem_of_app; [by apply HC|done].
      * by apply postorder_app_one.
Qed.
End dfs_correct.

(** ** topological_sort: the returned order *)

Section topological_sort_correct.
Context {node D : Type} {G : VariableProtocol node D}.

Lemma acyclic_of_rank (rank : node → nat) :
  (∀ v w : node, w ∈ parents v → rank w < rank v) → acyclic.
Proof.
  intros Hrank. apply (well_founded_lt_compat node rank).
  intros w v. apply Hrank.
Qed.

(** A finite graph without a cycle is acyclic in the sense above: it is
    enough that the nodes that have a parent are among finitely many. *)
Lemma finite_no_cycle_acyclic (nodes : list node) :
  (∀ v w : node, w ∈ parents v → v ∈ nodes) →
  (∀ v : node, ¬ tc edge v v) →
  acyclic.
Proof.
  intros Hfin Hcycle.
  assert (∀ n (seen : list node) v,
            NoDup seen → (∀ s, s ∈ seen → s ∈ nodes) →
            length nodes ≤ n + length seen →
            (∀ s, s ∈ seen → tc edge s v) →
            Acc (λ w v : node, edge v w) v) as Hacc.
  { induction n as [|n IH]; intros seen v HND Hsub Hlen Hseen;
      constructor; intros w Hw.
    - assert (NoDup (v :: seen)) as HND'.
      { apply NoDup_cons. split; [|done]. intros Hin. by apply (Hcycle v), Hseen. }
      assert (length (v :: seen) ≤ length nodes) as Hle.
      { apply submseteq_length, NoDup_submseteq; [done|].
        intros s [->|Hs]%elem_of_cons; [by eapply Hfin|by apply Hsub]. }
      simpl in Hle. lia.
    - apply (IH (v :: seen)).
      + apply NoDup_cons. split; [|done]. intros Hin. by apply (Hcycle v), Hseen.
      + intros s [->|Hs]%elem_of_cons; [by eapply Hfin|by apply Hsub].
      + simpl. lia.
      + intros s [->|Hs]%elem_of_cons; [by apply tc_once|].
        eapply tc_r; [by apply Hseen|done]. }
  intros v. apply (Hacc (length nodes) [] v); [apply NoDup_nil_2| |simpl; lia|];
    by intros ? ?%elem_of_nil.
Qed.

Lemma reach_output_nonconst (output v : node) :
  reach output v → is_constant output = false.
Proof. by induction 1. Qed.

Lemma reach_iff_reachable (output v : node) :
  constants_have_no_parents →
  reach output v ↔ reachable output v ∧ is_constant v = false.
Proof.
  intros Hconst. split.
  - intros Hr. split; [by apply reach_reachable|by eapply reach_nonconst].
  - intros [Hpath Hv]. revert v Hpath Hv.
    apply (rtc_ind_r (λ v, is_constant v = false → reach output v)).
    + apply reach_output.
    + intros u w _ Hw IH Hc. eapply reach_parent; [apply IH|done..].
      destruct (is_constant u) eqn:Hu; [|done].
      unfold edge in Hw. rewrite (Hconst u Hu) in Hw. by apply elem_of_nil in Hw.
Qed.

Lemma topological_sort_total (output : node) :
  acyclic →
  ∃ n order, ∀ fuel, n ≤ fuel → topological_sort fuel output = Some order.
Proof.
  intros Hwf. destruct (dfs_total Hwf output) as [n Hn].
  destruct (Hn (∅, [])) as [st Hst].
  exists n, (reverse st.2). intros fuel Hle. unfold topological_sort.
  by rewrite (dfs_mono n fuel _ st output Hle Hst).
Qed.

Lemma topological_sort_constant (fuel : nat) (output : node) :
  is_constant output = true → topological_sort (S fuel) output = Some [].
Proof. intros Hc. unfold topological_sort. by rewrite dfs_constant. Qed.

Lemma topological_sort_spec (fuel : nat) (output : node) (order : list node) :
  unique_ids → acyclic → is_constant output = false →
  topological_sort fuel output = Some order →
  NoDup order ∧ head order = Some output ∧
  (∀ x, x ∈ order ↔ reach output x) ∧
  (∀ i u w, order !! i = Some u → w ∈ parents u → is_constant w = false →
     ∃ j, i < j ∧ order !! j = Some w).
Proof.
  intros Hinj Hwf Hout. unfold topological_sort.
  destruct (dfs fuel (∅, []) output) as [st|] eqn:Hdfs; [|done].
  simpl. intros [= <-].
  apply (dfs_spec Hinj Hwf) in Hdfs as (new & HR & _ & Hnew & Hinv);
    [|done|set_solver| |by intros ? ?%elem_of_empty].
  2:{ split; simpl; [by intros ? ?%elem_of_nil|apply NoDup_nil_2|
                     by intros ? ?%elem_of_nil|by intros ? ? ? [=]]. }
  simpl in HR. destruct Hinv as [_ HND _ HP].
  assert (∀ x, reach output x → x ∈ st.2) as Hcomplete.
  { induction 1 as [|u w _ IH Hw Hc].
    - rewrite HR. apply elem_of_app. right. by left.
    - apply list_elem_of_lookup in IH as [i Hi].
      destruct (HP i u w Hi Hw Hc) as (j & _ & Hj).
      by eapply list_elem_of_lookup_2. }
  split_and!.
  - by rewrite reverse_Permutation.
  - by rewrite HR, reverse_snoc.
  - intros x. rewrite elem_of_reverse. split; [|apply Hcomplete].
    rewrite HR. intros Hx. by apply Hnew.
  - intros i u w [Hi Hlt]%reverse_lookup_Some Hw Hc.
    destruct (HP _ u w Hi Hw Hc) as (j & Hj & Hjw).
    exists (length st.2 - S j). split; [lia|].
    apply reverse_lookup_Some. split; [|lia].
    by replace (length st.2 - S (length st.2 - S j)) with j by lia.
Qed.
End topological_sort_correct.

(** ** backpropagate: the derivative totals *)

Section backprop_totals.
Context {node D : Type} {G : VariableProtocol node D}.
Context (zero : D) (add : D → D → D).

Lemma total_of_nil (init : option D) : total_of add init [] = init.
Proof. by destruct init. Qed.

Lemma total_of_app (init : option D) (cs1 cs2 : list D) :
  total_of add (total_of add init cs1) cs2 = total_of add init (cs1 ++ cs2).
Proof.
  destruct init as [i|]; simpl; [by rewrite foldl_app|].
  destruct cs1 as [|c cs1]; simpl; [done|by rewrite foldl_app].
Qed.

Lemma total_of_is_Some (init : option D) (cs : list D) :
  is_Some init → is_Some (total_of add init cs).
Proof. intros [i ->]. by eexists. Qed.

Lemma contributions_app (k : Z) (tr1 tr2 : list (event node D)) :
  contributions k (tr1 ++ tr2) = contributions k tr1 ++ contributions k tr2.
Proof. unfold contributions. by rewrite fmap_app, concat_app. Qed.

Lemma add_contribution_lookup (m : gmap Z D) (pd : node * D) (k : Z) :
  add_contribution add m pd !! k = total_of add (m !! k) (contributions_of k [pd]).
Proof.
  destruct pd as [p x]. unfold add_contribution, contributions_of. simpl.
  destruct (is_constant p); simpl; [by rewrite total_of_nil|].
  case_decide as Hk; simpl.
  - subst k. destruct (m !! unique_id p); by rewrite lookup_insert_eq.
  - rewrite total_of_nil. destruct (m !! unique_id p); by rewrite lookup_insert_ne.
Qed.

Lemma contributions_of_app (k : Z) (l1 l2 : list (node * D)) :
  contributions_of k (l1 ++ l2) = contributions_of k l1 ++ contributions_of k l2.
Proof. apply omap_app. Qed.

Lemma fan_out_lookup (pairs : list (node * D)) (m : gmap Z D) (k : Z) :
  fan_out add m pairs !! k = total_of add (m !! k) (contributions_of k pairs).
Proof.
  revert m. induction pairs as [|pd pairs IH]; intros m.
  - by rewrite total_of_nil.
  - unfold fan_out in *. simpl foldl. rewrite IH, add_contribution_lookup.
    rewrite total_of_app. by rewrite <-contributions_of_app.
Qed.

Lemma backprop_step_Some (m : gmap Z D) (tr : list (event node D)) (v : node) (d : D) :
  m !! unique_id v = Some d →
  backprop_step add (m, tr) v
  = Some (if is_leaf v then m else fan_out add m (chain_rule v d),
          tr ++ [event_of v d]).
Proof.
  intros Hd. unfold backprop_step, event_of. destruct (is_leaf v); by rewrite Hd.
Qed.

Lemma backprop_step_inv (m m' : gmap Z D) (tr tr' : list (event node D)) (v : node) :
  backprop_step add (m, tr) v = Some (m', tr') →
  ∃ d, m !! unique_id v = Some d ∧
       m' = (if is_leaf v then m else fan_out add m (chain_rule v d)) ∧
       tr' = tr ++ [event_of v d].
Proof.
  destruct (m !! unique_id v) as [d|] eqn:Hd.
  - rewrite (backprop_step_Some _ _ _ d Hd). intros [= <- <-]. by exists d.
  - unfold backprop_step. rewrite Hd. by destruct (is_leaf v).
Qed.

Lemma backprop_step_lookup (m : gmap Z D) (v : node) (d : D) (k : Z) :
  (if is_leaf v then m else fan_out add m (chain_rule v d)) !! k
  = total_of add (m !! k) (event_contributions k (event_of v d)).
Proof.
  unfold event_of. destruct (is_leaf v); simpl.
  - by rewrite total_of_nil.
  - apply fan_out_lookup.
Qed.

(** What a run of the loop over a list of variables leaves behind. *)
Lemma backprop_run_inv (l : list node) (m m' : gmap Z D) (tr tr' : list (event node D)) :
  for_each (backprop_step add) (m, tr) l = Some (m', tr') →
  ∃ evs, tr' = tr ++ evs ∧
         Forall2 (λ c e, ∃ d, e = event_of c d) l evs ∧
         ∀ k, m' !! k = total_of add (m !! k) (contributions k evs).
Proof.
  revert m tr. induction l as [|v l IH]; intros m tr.
  - intros [= <- <-]. exists []. rewrite app_nil_r. split_and!; [done|constructor|].
    intros k. by rewrite total_of_nil.
  - rewrite for_each_cons.
    destruct (backprop_step add (m, tr) v) as [[m1 tr1]|] eqn:Hstep; [|done].
    apply backprop_step_inv in Hstep as (d & Hd & -> & ->).
    intros (evs & -> & Hevs & Hm')%IH.
    exists (event_of v d :: evs). split_and!.
    + by rewrite <-app_assoc.
    + constructor; [by exists d|done].
    + intros k. rewrite Hm', backprop_step_lookup, total_of_app.
      unfold contributions. simpl. done.
Qed.

Lemma backprop_run_total (l : list node) (m : gmap Z D) (tr : list (event node D)) :
  (∀ v, v ∈ l → is_Some (m !! unique_id v)) →
  is_Some (for_each (backprop_step add) (m, tr) l).
Proof.
  revert m tr. induction l as [|v l IH]; intros m tr Hkeys; [by eexists|].
  destruct (Hkeys v) as [d Hd]; [left|].
  rewrite for_each_cons, (backprop_step_Some _ _ _ d Hd). apply IH.
  intros v' Hv'. rewrite backprop_step_lookup. apply total_of_is_Some, Hkeys. by right.
Qed.

Lemma init_zero_lookup (l : list node) (m : gmap Z D) (k : Z) :
  foldl (λ m var, <[unique_id var := zero]> m) m l !! k
  = if decide (k ∈ unique_id <$> l) then Some zero else m !! k.
Proof.
  revert m. induction l as [|v l IH]; intros m; [done|].
  cbn [foldl]. rewrite fmap_cons, IH.
  destruct (decide (k = unique_id v)) as [->|Hne].
  - rewrite lookup_insert_eq.
    destruct (decide (unique_id v ∈ unique_id <$> l));
      destruct (decide (unique_id v ∈ unique_id v :: (unique_id <$> l))) as [|[]];
      try done; left.
  - rewrite lookup_insert_ne by done.
    destruct (decide (k ∈ unique_id <$> l)),
      (decide (k ∈ unique_id v :: (unique_id <$> l))) as [Hin|Hnin]; try done.
    + destruct Hnin. by right.
    + by apply elem_of_cons in Hin as [?|?].
Qed.

Lemma init_derivatives_lookup (order : list node) (output : node) (seed : D) (k : Z) :
  init_derivatives zero order output seed !! k
  = if decide (k = unique_id output) then Some seed
    else if decide (k ∈ unique_id <$> order) then Some zero else None.
Proof.
  unfold init_derivatives. case_decide as Hk.
  - subst k. by rewrite lookup_insert_eq.
  - rewrite lookup_insert_ne by done. by rewrite init_zero_lookup, lookup_empty.
Qed.

Lemma backprop_loop_total (order : list node) (output : node) (seed : D) :
  is_Some (backprop_loop zero add order output seed).
Proof.
  apply backprop_run_total. intros v Hv. rewrite init_derivatives_lookup.
  case_decide; [by eexists|].
  rewrite decide_True; [by eexists|]. by apply list_elem_of_fmap_2.
Qed.
End backprop_totals.

(** ** The example graphs satisfy the assumptions *)

Module ExampleFacts.
Import Examples.

Lemma chain_graph_unique_ids : unique_ids (G := chain_graph).
Proof. intros u v Huv. simpl in Huv. lia. Qed.

Lemma chain_graph_acyclic : acyclic (G := chain_graph).
Proof.
  apply (acyclic_of_rank (G := chain_graph) (λ n, n)).
  intros [|[|[|v]]] w Hw; simpl in Hw; set_unfold; lia.
Qed.

Lemma diamond_graph_unique_ids : unique_ids (G := diamond_graph).
Proof. intros u v Huv. simpl in Huv. lia. Qed.

Lemma diamond_graph_acyclic : acyclic (G := diamond_graph).
Proof.
  apply (acyclic_of_rank (G := diamond_graph) (λ n, n)).
  intros [|[|[|[|v]]]] w Hw; simpl in Hw; set_unfold; lia.
Qed.

Lemma diamond_graph_chain_rule_on_parents :
  chain_rule_on_parents (G := diamond_graph).
Proof.
  intros [|[|[|[|v]]]] p d x Hp; simpl in *; set_unfold; intuition congruence.
Qed.

Lemma diamond_graph_constants : constants_have_no_parents (G := diamond_graph).
Proof. by intros [|[|[|[|v]]]]. Qed.
End ExampleFacts.

(** * The properties *)

Section topological_sort_claims.
Context {node D : Type} {G : VariableProtocol node D}.

(** C1: on an acyclic graph with unique ids and a non-constant output,
    [topological_sort] returns (given enough fuel, always the same order)
    a sequence whose first element is the output and in which every node of
    the reachable non-constant subgraph occurs, together with each of its
    non-constant parents, at a strictly smaller index than that parent. *)
Theorem topological_sort_order (output : node) :
  unique_ids → acyclic → is_constant output = false →
  ∃ n order,
    (∀ fuel, n ≤ fuel → topological_sort fuel output = Some order) ∧
    head order = Some output ∧
    ∀ child parent,
      reach output child → parent ∈ parents child → is_constant parent = false →
      (∃ i j, order !! i = Some child ∧ order !! j = Some parent ∧ i < j) ∧
      (∀ i j, order !! i = Some child → order !! j = Some parent → i < j).
Proof.
  intros Hinj Hwf Hout.
  destruct (topological_sort_total output Hwf) as (n & order & Hn).
  exists n, order. split; [done|].
  destruct (topological_sort_spec n output order Hinj Hwf Hout (Hn n (le_n n)))
    as (HND & Hhead & Hmem & Hord).
  split; [done|]. intros child parent Hchild Hparent Hc.
  apply Hmem, list_elem_of_lookup in Hchild as [i Hi].
  destruct (Hord i child parent Hi Hparent Hc) as (j & Hij & Hj).
  split; [by exists i, j|].
  intros i' j' Hi' Hj'.
  by rewrite (NoDup_lookup _ _ _ _ HND Hi' Hi), (NoDup_lookup _ _ _ _ HND Hj' Hj).
Qed.

(** C2: on an acyclic graph with unique ids, the sequence returned by
    [topological_sort] has no duplicates, contains no constant, and contains
    exactly the nodes of the reachable non-constant subgraph; when constants
    have no parents, as the data model says, these are exactly the
    non-constant nodes reachable from the output through the parent
    relation; and when the output is constant the sequence is empty. *)
Theorem topological_sort_complete (output : node) :
  unique_ids → acyclic →
  ∃ n order,
    (∀ fuel, n ≤ fuel → topological_sort fuel output = Some order) ∧
    NoDup order ∧
    (∀ x, x ∈ order → is_constant x = false) ∧
    (∀ x, x ∈ order ↔ reach output x) ∧
    (constants_have_no_parents →
     ∀ x, x ∈ order ↔ reachable output x ∧ is_constant x = false) ∧
    (is_constant output = true → order = []).
Proof.
  intros Hinj Hwf.
  destruct (topological_sort_total output Hwf) as (n & order & Hn).
  exists (S n), order. split; [intros fuel Hle; apply Hn; lia|].
  destruct (is_constant output) eqn:Hout.
  - assert (order = []) as ->.
    { pose proof (Hn (S n) (le_S _ _ (le_n n))) as Hrun.
      rewrite topological_sort_constant in Hrun by done. congruence. }
    assert (∀ x, x ∈ [] ↔ reach output x) as Hmem.
    { intros x. split; [by intros ?%elem_of_nil|].
      intros Hx%reach_output_nonconst. congruence. }
    split_and!; [apply NoDup_nil_2|by intros ? ?%elem_of_nil|done| |done].
    intros Hconst x. by rewrite Hmem, reach_iff_reachable.
  - destruct (topological_sort_spec n output order Hinj Hwf Hout (Hn n (le_n n)))
      as (HND & _ & Hmem & _).
    split_and!; [done| |done| |done].
    + intros x Hx%Hmem. by eapply reach_nonconst.
    + intros Hconst x. by rewrite Hmem, reach_iff_reachable.
Qed.
End topological_sort_claims.

Lemma topological_sort_order_witness :
  ∃ n order,
    (∀ fuel, n ≤ fuel →
       topological_sort (G := Examples.diamond_graph) fuel 3 = Some order) ∧
    head order = Some 3 ∧
    ∀ child parent,
      reach (G := Examples.diamond_graph) 3 child →
      parent ∈ parents (VariableProtocol := Examples.diamond_graph) child →
      is_constant (VariableProtocol := Examples.diamond_graph) parent = false →
      (∃ i j, order !! i = Some child ∧ order !! j = Some parent ∧ i < j) ∧
      (∀ i j, order !! i = Some child → order !! j = Some parent → i < j).
Proof.
  apply (topological_sort_order (G := Examples.diamond_graph) 3).
  - exact ExampleFacts.diamond_graph_unique_ids.
  - exact ExampleFacts.diamond_graph_acyclic.
  - reflexivity.
Defined.

Lemma topological_sort_complete_witness :
  ∃ n order,
    (∀ fuel, n ≤ fuel →
       topological_sort (G := Examples.diamond_graph) fuel 3 = Some order) ∧
    NoDup order ∧
    (∀ x, x ∈ order →
       is_constant (VariableProtocol := Examples.diamond_graph) x = false) ∧
    (∀ x, x ∈ order ↔ reach (G := Examples.diamond_graph) 3 x) ∧
    (∀ x, x ∈ order ↔
          reachable (G := Examples.diamond_graph) 3 x ∧
          is_constant (VariableProtocol := Examples.diamond_graph) x = false).
Proof.
  destruct (topological_sort_complete (G := Examples.diamond_graph) 3
              ExampleFacts.diamond_graph_unique_ids
              ExampleFacts.diamond_graph_acyclic)
    as (n & order & Hn & HND & Hnc & Hreach & Hall & _).
  exists n, order. split_and!; [exact Hn|exact HND|exact Hnc|exact Hreach|].
  exact (Hall ExampleFacts.diamond_graph_constants).
Defined.

Example diamond_graph_order :
  topological_sort (G := Examples.diamond_graph) 4 3 = Some [3; 2; 1; 0].
Proof. vm_compute. reflexivity. Qed.

(** ** backpropagate: the whole run *)

Section backpropagate_run.
Context {node D : Type} {G : VariableProtocol node D}.
Context (zero : D) (add : D → D → D).

Lemma backpropagate_total (output : node) (seed : D) :
  acyclic →
  ∃ n order final trace,
    (∀ fuel, n ≤ fuel →
       topological_sort fuel output = Some order ∧
       backpropagate zero add fuel output seed = Some trace) ∧
    backprop_loop zero add order output seed = Some (final, trace).
Proof.
  intros Hwf. destruct (topological_sort_total output Hwf) as (n & order & Hn).
  destruct (backprop_loop_total zero add order output seed) as [[final trace] Hloop].
  exists n, order, final, trace. split; [|done].
  intros fuel Hle. split; [by apply Hn|].
  unfold backpropagate. rewrite (Hn fuel Hle). simpl. by rewrite Hloop.
Qed.

(** The run cut at a variable of the order. *)
Lemma backprop_loop_split (order pre post : list node) (v output : node) (seed : D)
    (final : gmap Z D) (trace : list (event node D)) :
  backprop_loop zero add order output seed = Some (final, trace) →
  order = pre ++ v :: post →
  ∃ m1 tr1 d tr3,
    for_each (backprop_step add) (init_derivatives zero order output seed, []) pre
      = Some (m1, tr1) ∧
    m1 !! unique_id v = Some d ∧
    trace = tr1 ++ event_of v d :: tr3 ∧
    length tr1 = length pre ∧
    Forall2 (λ c e, ∃ d, e = event_of c d) post tr3 ∧
    (∀ k, m1 !! k
          = total_of add (init_derivatives zero order output seed !! k)
                     (contributions k tr1)) ∧
    (∀ k, final !! k
          = total_of add (init_derivatives zero order output seed !! k)
                     (contributions k trace)).
Proof.
  unfold backprop_loop. intros Hrun Horder.
  pose proof (backprop_run_inv add _ _ _ _ _ Hrun) as (evs & Htr & _ & Hfinal).
  simpl in Htr. subst evs.
  rewrite Horder in Hrun at 2. rewrite for_each_app in Hrun.
  destruct (for_each _ _ pre) as [[m1 tr1]|] eqn:Hpre; [|done].
  cbn [mbind option_bind] in Hrun. rewrite for_each_cons in Hrun.
  destruct (backprop_step add (m1, tr1) v) as [[m2 tr2]|] eqn:Hstep; [|done].
  cbn [mbind option_bind] in Hrun.
  apply backprop_step_inv in Hstep as (d & Hd & -> & ->).
  apply backprop_run_inv in Hrun as (tr3 & -> & Hpost & _).
  pose proof (backprop_run_inv add _ _ _ _ _ Hpre) as (evs1 & Htr1 & Hpre1 & Hm1).
  simpl in Htr1. subst evs1.
  exists m1, tr1, d, tr3.
  split_and!; [done|done|by rewrite <-app_assoc| |done|done|done].
  symmetry. by eapply Forall2_length.
Qed.

Lemma event_of_elem (l : list node) (evs : list (event node D)) (e : event node D) :
  Forall2 (λ c e, ∃ d, e = event_of c d) l evs → e ∈ evs →
  ∃ c d, c ∈ l ∧ e = event_of c d.
Proof.
  induction 1 as [|c e' l evs [d ->] _ IH]; [by intros ?%elem_of_nil|].
  intros [->|He]%elem_of_cons.
  - exists c, d. split; [left|done].
  - destruct (IH He) as (c' & d' & Hc' & ->). exists c', d'. split; [by right|done].
Qed.

Lemma contributions_of_nil (k : Z) (pairs : list (node * D)) :
  (∀ p x, (p, x) ∈ pairs → is_constant p = false → unique_id p ≠ k) →
  contributions_of k pairs = [].
Proof.
  induction pairs as [|[p x] pairs IH]; intros Hk; [done|].
  unfold contributions_of in *. cbn [omap list_omap]. simpl.
  destruct (is_constant p) eqn:Hc.
  - apply IH. intros p' x' Hin. apply (Hk p' x'). by right.
  - rewrite decide_False by (apply (Hk p x); [left|done]).
    apply IH. intros p' x' Hin. apply (Hk p' x'). by right.
Qed.

Lemma contributions_nil (k : Z) (l : list node) (evs : list (event node D)) :
  Forall2 (λ c e, ∃ d, e = event_of c d) l evs →
  (∀ c d p x, c ∈ l → (p, x) ∈ chain_rule c d → is_constant p = false →
     unique_id p ≠ k) →
  contributions k evs = [].
Proof.
  induction 1 as [|c e l evs [d ->] _ IH]; intros Hk; [done|].
  unfold contributions in *. rewrite fmap_cons. cbn [concat].
  rewrite IH by (intros c' d' p x Hc'; apply (Hk c' d' p x); by right).
  rewrite app_nil_r. unfold event_of. destruct (is_leaf c); [done|]. simpl.
  apply contributions_of_nil. intros p x. apply (Hk c d p x). left.
Qed.
End backpropagate_run.

Section backpropagate_claims.
Context {node D : Type} {G : VariableProtocol node D}.
Context (zero : D) (add : D → D → D).

(** C5: on an acyclic graph with unique ids whose [chain_rule] returns
    pairs for parents only, when a node [v] of the topological order is
    processed every consumer of [v] in the order has been processed before
    it, and the total [d] read for [v] is its initial value (the seed for
    the output, zero otherwise) plus every contribution that the whole run
    directs at [v], each once and in order: all of them were made before
    [v] is read, and the entry of [v] never changes afterwards. *)
Theorem backpropagate_total_is_final (output : node) (seed : D) :
  unique_ids → acyclic → chain_rule_on_parents →
  ∃ n order final trace,
    (∀ fuel, n ≤ fuel →
       topological_sort fuel output = Some order ∧
       backpropagate zero add fuel output seed = Some trace) ∧
    backprop_loop zero add order output seed = Some (final, trace) ∧
    ∀ pre v post, order = pre ++ v :: post →
      (∀ c, c ∈ order → v ∈ parents c → c ∈ pre) ∧
      ∃ m1 tr1 d,
        for_each (backprop_step add)
                 (init_derivatives zero order output seed, []) pre
          = Some (m1, tr1) ∧
        m1 !! unique_id v = Some d ∧
        trace !! length pre = Some (event_of v d) ∧
        contributions (unique_id v) tr1 = contributions (unique_id v) trace ∧
        d = foldl add (if decide (unique_id v = unique_id output) then seed else zero)
                  (contributions (unique_id v) trace) ∧
        final !! unique_id v = Some d.
Proof.
  intros Hinj Hwf Hrule.
  destruct (backpropagate_total zero add output seed Hwf)
    as (n & order & final & trace & Hn & Hloop).
  exists (S n), order, final, trace.
  split; [intros fuel Hle; apply Hn; lia|]. split; [done|].
  intros pre v post Horder.
  destruct (is_constant output) eqn:Hout.
  { destruct (Hn (S n)) as [Hsort _]; [lia|].
    rewrite topological_sort_constant in Hsort by done.
    injection Hsort as <-. by destruct pre. }
  destruct (Hn n (le_n n)) as [Hsort _].
  destruct (topological_sort_spec n output order Hinj Hwf Hout Hsort)
    as (HND & _ & Hmem & Hord).
  assert (order !! length pre = Some v) as Hv.
  { rewrite Horder. by rewrite list_lookup_middle. }
  assert (is_constant v = false) as Hvc.
  { eapply reach_nonconst, Hmem. by eapply list_elem_of_lookup_2. }
  assert (∀ c i, order !! i = Some c → v ∈ parents c → i < length pre) as Hbefore.
  { intros c i Hi Hpar. destruct (Hord i c v Hi Hpar Hvc) as (j & Hij & Hj).
    by rewrite <-(NoDup_lookup _ _ _ _ HND Hj Hv). }
  split.
  { intros c [i Hi]%list_elem_of_lookup Hpar.
    pose proof (Hbefore c i Hi Hpar) as Hlt.
    rewrite Horder, lookup_app_l in Hi by done. by eapply list_elem_of_lookup_2. }
  destruct (backprop_loop_split zero add order pre post v output seed final trace
              Hloop Horder)
    as (m1 & tr1 & d & tr3 & Hpre & Hd & Htrace & Hlen & Hpost & Hm1 & Hfinal).
  assert (contributions (unique_id v) (event_of v d :: tr3) = []) as Hlate.
  { apply (contributions_nil (unique_id v) (v :: post)).
    - constructor; [by exists d|done].
    - intros c d' p x Hc Hpx Hpc Hid. apply Hinj in Hid as ->.
      apply Hrule in Hpx.
      assert (∃ i, length pre ≤ i ∧ order !! i = Some c) as (i & Hle & Hi).
      { apply list_elem_of_lookup in Hc as [i Hi]. exists (length pre + i).
        split; [lia|]. rewrite Horder. by rewrite lookup_app_r, Nat.add_sub' by lia. }
      pose proof (Hbefore c i Hi Hpx). lia. }
  assert (contributions (unique_id v) tr1 = contributions (unique_id v) trace) as Hsame.
  { by rewrite Htrace, contributions_app, Hlate, app_nil_r. }
  assert (init_derivatives zero order output seed !! unique_id v
          = Some (if decide (unique_id v = unique_id output) then seed else zero))
    as Hinit.
  { rewrite init_derivatives_lookup. case_decide; [done|].
    rewrite decide_True; [done|]. apply list_elem_of_fmap_2.
    by eapply list_elem_of_lookup_2. }
  assert (Some d = Some (foldl add (if decide (unique_id v = unique_id output)
                                    then seed else zero)
                               (contributions (unique_id v) trace))) as Hdval.
  { by rewrite <-Hd, Hm1, Hinit, Hsame. }
  exists m1, tr1, d. split_and!; [done|done| |done|congruence|].
  - rewrite Htrace, <-Hlen. by rewrite list_lookup_middle.
  - by rewrite Hfinal, Hinit, Hdval.
Qed.

(** C7: on an acyclic graph, when a node [v] of the topological order with
    [v.is_leaf()] true is processed, [backpropagate] reads the total [d] of
    [v]'s id, calls [v.accumulate_derivative(d)] and leaves the totals as
    they are; and [v.chain_rule] is called nowhere in the run. *)
Theorem backpropagate_leaf (output : node) (seed : D) :
  acyclic →
  ∃ n order trace,
    (∀ fuel, n ≤ fuel →
       topological_sort fuel output = Some order ∧
       backpropagate zero add fuel output seed = Some trace) ∧
    ∀ pre v post, order = pre ++ v :: post → is_leaf v = true →
      (∃ m1 tr1 d,
         for_each (backprop_step add)
                  (init_derivatives zero order output seed, []) pre
           = Some (m1, tr1) ∧
         m1 !! unique_id v = Some d ∧
         backprop_step add (m1, tr1) v
           = Some (m1, tr1 ++ [AccumulateDerivative v d]) ∧
         trace !! length pre = Some (AccumulateDerivative v d)) ∧
      (∀ d, ChainRule v d ∉ trace).
Proof.
  intros Hwf.
  destruct (backpropagate_total zero add output seed Hwf)
    as (n & order & final & trace & Hn & Hloop).
  exists n, order, trace. split; [done|].
  intros pre v post Horder Hleaf. split.
  - destruct (backprop_loop_split zero add order pre post v output seed final trace
                Hloop Horder)
      as (m1 & tr1 & d & tr3 & Hpre & Hd & Htrace & Hlen & _).
    exists m1, tr1, d. unfold event_of in Htrace. rewrite Hleaf in Htrace.
    split_and!; [done|done| |].
    + rewrite (backprop_step_Some add _ _ _ d Hd). unfold event_of. by rewrite Hleaf.
    + rewrite Htrace, <-Hlen. by rewrite list_lookup_middle.
  - intros d Hin.
    pose proof (backprop_run_inv add _ _ _ _ _ Hloop) as (evs & Htr & Hevs & _).
    simpl in Htr. subst evs.
    destruct (event_of_elem _ _ _ Hevs Hin) as (c & d' & _ & Heq).
    unfold event_of in Heq. destruct (is_leaf c) eqn:Hc; [done|].
    injection Heq as -> _. congruence.
Qed.

(** C10: when the output is constant, the topological sort is empty and
    [backpropagate] returns having called neither [accumulate_derivative]
    nor [chain_rule] on any node. *)
Theorem backpropagate_constant_output (output : node) (seed : D) (fuel : nat) :
  is_constant output = true →
  topological_sort (S fuel) output = Some [] ∧
  backpropagate zero add (S fuel) output seed = Some [].
Proof.
  intros Hc. split; [by apply topological_sort_constant|].
  unfold backpropagate. by rewrite topological_sort_constant.
Qed.
End backpropagate_claims.

(** ** backpropagate on the two shapes *)

Section shapes_claims.
Context {node D : Type} {G : VariableProtocol node D}.
Context (zero : D) (add mul : D → D → D).

Lemma topological_sort_chain (leaf h output : node) (g1 g2 : D) :
  linear_chain mul leaf h output g1 g2 →
  topological_sort 3 output = Some [output; h; leaf].
Proof.
  intros [(Hho & Hlo & Hlh) (Hcl & Hch & Hco) _ (Hpo & Hph & Hpl) _ _].
  unfold topological_sort.
  dfs_enter Hco Hpo. rewrite decide_False by set_solver.
  dfs_enter Hch Hph. rewrite decide_False by set_solver.
  dfs_enter Hcl Hpl. done.
Qed.

(** The run on the chain, as the code computes it. *)
Lemma backprop_loop_chain (leaf h output : node) (g1 g2 d : D) :
  linear_chain mul leaf h output g1 g2 →
  ∃ final,
    backprop_loop zero add [output; h; leaf] output d
    = Some (final,
            [ChainRule output d;
             ChainRule h (add zero (mul d g2));
             AccumulateDerivative leaf (add zero (mul (add zero (mul d g2)) g1))]).
Proof.
  intros [(Hho & Hlo & Hlh) (Hcl & Hch & Hco) (Hll & Hlfh & Hlfo)
          (Hpo & Hph & Hpl) Hro Hrh].
  unfold backprop_loop.
  set (m0 := init_derivatives zero [output; h; leaf] output d).
  assert (m0 !! unique_id output = Some d) as Hm0o.
  { unfold m0. rewrite init_derivatives_lookup. by rewrite decide_True. }
  assert (m0 !! unique_id h = Some zero) as Hm0h.
  { unfold m0. rewrite init_derivatives_lookup, decide_False by done.
    rewrite decide_True; [done|]. set_solver. }
  assert (m0 !! unique_id leaf = Some zero) as Hm0l.
  { unfold m0. rewrite init_derivatives_lookup, decide_False by done.
    rewrite decide_True; [done|]. set_solver. }
  rewrite for_each_cons, (backprop_step_Some add _ _ _ d Hm0o), Hlfo, Hro.
  unfold event_of at 1. rewrite Hlfo.
  cbn [mbind option_bind fan_out foldl add_contribution]. rewrite Hch, Hm0h.
  set (d1 := add zero (mul d g2)).
  set (m1 := <[unique_id h := d1]> m0).
  assert (m1 !! unique_id h = Some d1) as Hm1h by apply lookup_insert_eq.
  assert (m1 !! unique_id leaf = Some zero) as Hm1l.
  { unfold m1. by rewrite lookup_insert_ne by done. }
  rewrite for_each_cons, (backprop_step_Some add _ _ _ d1 Hm1h), Hlfh, Hrh.
  unfold event_of at 1. rewrite Hlfh.
  cbn [mbind option_bind fan_out foldl add_contribution]. rewrite Hcl, Hm1l.
  set (d2 := add zero (mul d1 g1)).
  set (m2 := <[unique_id leaf := d2]> m1).
  assert (m2 !! unique_id leaf = Some d2) as Hm2l by apply lookup_insert_eq.
  rewrite for_each_cons, (backprop_step_Some add _ _ _ d2 Hm2l), Hll.
  unfold event_of. rewrite Hll. simpl. by exists m2.
Qed.

(** C3: on a linear chain [leaf -> op1 -> op2 -> output],
    [backpropagate(output, d)] calls [chain_rule] on [output] and on the
    intermediate node, and then [accumulate_derivative] once, on the leaf,
    with [0 + (0 + d * g2) * g1]: the derivative is multiplied by [g2]
    first and by [g1] second, each product added to the initial total [0].
    This holds for any derivative values, floats included.  Where
    [0 + x = x] and multiplication is associative and commutative, the
    value is [d * g1 * g2]. *)
Theorem backpropagate_chain (leaf h output : node) (g1 g2 d : D) (fuel : nat) :
  linear_chain mul leaf h output g1 g2 →
  3 ≤ fuel →
  backpropagate zero add fuel output d
  = Some [ChainRule output d;
          ChainRule h (add zero (mul d g2));
          AccumulateDerivative leaf (add zero (mul (add zero (mul d g2)) g1))] ∧
  ((∀ x, add zero x = x) →
   (∀ x y, mul x y = mul y x) →
   (∀ x y z, mul x (mul y z) = mul (mul x y) z) →
   backpropagate zero add fuel output d
   = Some [ChainRule output d;
           ChainRule h (mul d g2);
           AccumulateDerivative leaf (mul (mul d g1) g2)]).
Proof.
  intros Hchain Hfuel.
  assert (backpropagate zero add fuel output d
          = Some [ChainRule output d;
                  ChainRule h (add zero (mul d g2));
                  AccumulateDerivative leaf
                    (add zero (mul (add zero (mul d g2)) g1))]) as Hrun.
  { unfold backpropagate.
    rewrite (topological_sort_mono 3 fuel output _ Hfuel
               (topological_sort_chain leaf h output g1 g2 Hchain)).
    cbn [mbind option_bind].
    destruct (backprop_loop_chain leaf h output g1 g2 d Hchain) as [final ->].
    done. }
  split; [done|].
  intros Hadd Hcomm Hassoc. rewrite Hrun, !Hadd.
  by rewrite <-(Hassoc d g2 g1), (Hcomm g2 g1), Hassoc.
Qed.
End shapes_claims.

Section diamond_claims.
Context {node D : Type} {G : VariableProtocol node D}.
Context (zero : D) (add : D → D → D).

Lemma topological_sort_diamond (leaf a b output : node) (fa fb : D → D) :
  diamond leaf a b output fa fb →
  topological_sort 3 output = Some [output; b; a; leaf].
Proof.
  intros [(Hao & Hbo & Hlo & Hab & Hla & Hlb) (Hcl & Hca & Hcb & Hco) _
          (Hpo & Hpa & Hpb & Hpl) _ _ _].
  unfold topological_sort.
  dfs_enter Hco Hpo. rewrite decide_False by set_solver.
  dfs_enter Hca Hpa. rewrite decide_False by set_solver.
  dfs_enter Hcl Hpl. rewrite decide_False by set_solver.
  dfs_enter Hcb Hpb. rewrite decide_True by set_solver. done.
Qed.

(** The run on the diamond, as the code computes it. *)
Lemma backprop_loop_diamond (leaf a b output : node) (fa fb : D → D) (seed : D) :
  diamond leaf a b output fa fb →
  ∃ final,
    backprop_loop zero add [output; b; a; leaf] output seed
    = Some (final,
            [ChainRule output seed;
             ChainRule b (add zero seed);
             ChainRule a (add zero seed);
             AccumulateDerivative leaf
               (add (add zero (fb (add zero seed))) (fa (add zero seed)))]).
Proof.
  intros [(Hao & Hbo & Hlo & Hab & Hla & Hlb) (Hcl & Hca & Hcb & Hco)
          (Hll & Hlfa & Hlfb & Hlfo) (Hpo & Hpa & Hpb & Hpl) Hro Hra Hrb].
  unfold backprop_loop.
  set (m0 := init_derivatives zero [output; b; a; leaf] output seed).
  assert (m0 !! unique_id output = Some seed) as Hm0o.
  { unfold m0. rewrite init_derivatives_lookup. by rewrite decide_True. }
  assert (∀ v, v ∈ [b; a; leaf] → unique_id v ≠ unique_id output →
               m0 !! unique_id v = Some zero) as Hm0.
  { intros v Hv Hne. unfold m0.
    rewrite init_derivatives_lookup, decide_False by done.
    rewrite decide_True; [done|]. apply list_elem_of_fmap_2. by right. }
  rewrite for_each_cons, (backprop_step_Some add _ _ _ seed Hm0o), Hlfo, Hro.
  unfold event_of at 1. rewrite Hlfo.
  cbn [mbind option_bind fan_out foldl add_contribution].
  rewrite Hca, (Hm0 a) by (done || set_solver).
  set (d1 := add zero seed).
  set (m1 := <[unique_id a := d1]> m0).
  assert (m1 !! unique_id b = Some zero) as Hm1b.
  { unfold m1. rewrite lookup_insert_ne by done. apply Hm0; [set_solver|done]. }
  rewrite Hcb, Hm1b.
  set (m2 := <[unique_id b := d1]> m1).
  assert (m2 !! unique_id b = Some d1) as Hm2b by apply lookup_insert_eq.
  assert (m2 !! unique_id a = Some d1) as Hm2a.
  { unfold m2. rewrite lookup_insert_ne by done. apply lookup_insert_eq. }
  assert (m2 !! unique_id leaf = Some zero) as Hm2l.
  { unfold m2, m1. rewrite !lookup_insert_ne by done. apply Hm0; [set_solver|done]. }
  rewrite for_each_cons, (backprop_step_Some add _ _ _ d1 Hm2b), Hlfb, Hrb.
  unfold event_of at 1. rewrite Hlfb.
  cbn [mbind option_bind fan_out foldl add_contribution]. rewrite Hcl, Hm2l.
  set (m3 := <[unique_id leaf := add zero (fb d1)]> m2).
  assert (m3 !! unique_id a = Some d1) as Hm3a.
  { unfold m3. by rewrite lookup_insert_ne by done. }
  assert (m3 !! unique_id leaf = Some (add zero (fb d1))) as Hm3l
    by apply lookup_insert_eq.
  rewrite for_each_cons, (backprop_step_Some add _ _ _ d1 Hm3a), Hlfa, Hra.
  unfold event_of at 1. rewrite Hlfa.
  cbn [mbind option_bind fan_out foldl add_contribution]. rewrite Hcl, Hm3l.
  set (d2 := add (add zero (fb d1)) (fa d1)).
  set (m4 := <[unique_id leaf := d2]> m3).
  assert (m4 !! unique_id leaf = Some d2) as Hm4l by apply lookup_insert_eq.
  rewrite for_each_cons, (backprop_step_Some add _ _ _ d2 Hm4l), Hll.
  unfold event_of. rewrite Hll. simpl. by exists m4.
Qed.

(** C4: on a diamond, where a leaf is the parent of two nodes [a] and [b]
    whose sum is the output, with derivative values in a structure where
    [0 + x = x] and addition is commutative, [backpropagate(output, seed)]
    calls [accumulate_derivative] once, on the leaf, with the sum of the
    contribution of the path through [a] and of the path through [b]:
    neither is dropped and neither is counted twice. *)
Theorem backpropagate_diamond (leaf a b output : node) (fa fb : D → D)
    (seed : D) (fuel : nat) :
  (∀ x, add zero x = x) →
  (∀ x y, add x y = add y x) →
  diamond leaf a b output fa fb →
  3 ≤ fuel →
  backpropagate zero add fuel output seed
  = Some [ChainRule output seed;
          ChainRule b seed;
          ChainRule a seed;
          AccumulateDerivative leaf (add (fa seed) (fb seed))].
Proof.
  intros Hadd Hcomm Hdiamond Hfuel. unfold backpropagate.
  rewrite (topological_sort_mono 3 fuel output _ Hfuel
             (topological_sort_diamond leaf a b output fa fb Hdiamond)).
  cbn [mbind option_bind].
  destruct (backprop_loop_diamond leaf a b output fa fb seed Hdiamond) as [final ->].
  cbn [mbind option_bind snd]. rewrite !Hadd.
  by rewrite (Hcomm (fb seed)).
Qed.
End diamond_claims.

(** ** The fan-out step *)

Section fan_out_claims.
Context {node D : Type} {G : VariableProtocol node D}.
Context (add : D → D → D).

Lemma contributions_of_none (k : Z) (pairs : list (node * D)) :
  (∀ pd, pd ∈ pairs → is_constant pd.1 = false → unique_id pd.1 ≠ k) →
  contributions_of k pairs = [].
Proof.
  induction pairs as [|[p x] pairs IH]; intros Hk; [done|].
  unfold contributions_of in *. cbn [omap list_omap fst snd].
  destruct (is_constant p) eqn:Hc.
  - apply IH. intros pd Hpd. apply Hk. by right.
  - rewrite decide_False by (apply (Hk (p, x)); [left|done]).
    apply IH. intros pd Hpd. apply Hk. by right.
Qed.

Lemma add_contribution_constant (m : gmap Z D) (p : node) (x : D) :
  is_constant p = true → add_contribution add m (p, x) = m.
Proof. intros Hc. unfold add_contribution. by rewrite Hc. Qed.

Lemma fan_out_constants (m : gmap Z D) (pairs : list (node * D)) :
  (∀ pd, pd ∈ pairs → is_constant pd.1 = true) → fan_out add m pairs = m.
Proof.
  induction pairs as [|[p x] pairs IH]; intros Hc; [done|].
  unfold fan_out in *. cbn [foldl].
  rewrite add_contribution_constant by (apply (Hc (p, x)); left).
  apply IH. intros pd Hpd. apply Hc. by right.
Qed.

(** C6: the loop over the pairs returned by [chain_rule], as the step of
    [backpropagate] runs it on a variable that is not a leaf.  The step
    returns whatever the pairs are: it needs the entry of the variable
    itself, never that of a parent.  The pairs whose parent is constant are
    discarded: the loop gives the same totals without them, leaves the totals
    as they are when every parent is constant, and leaves the entry of a key
    alone (missing entries stay missing) unless it is the id of a
    non-constant parent.  The first contribution directed at a non-constant
    parent whose id has no entry creates the entry, with that contribution
    as its value, to which the later contributions for the same id are
    added.  The last two parts say the same of one run of the loop body. *)
Theorem fan_out_constant_and_missing (m : gmap Z D) (pairs : list (node * D)) :
  (∀ var d tr,
     is_leaf var = false → m !! unique_id var = Some d →
     chain_rule var d = pairs →
     backprop_step add (m, tr) var
     = Some (fan_out add m pairs, tr ++ [ChainRule var d])) ∧
  fan_out add m pairs
  = fan_out add m (filter (λ pd, is_constant pd.1 = false) pairs) ∧
  ((∀ pd, pd ∈ pairs → is_constant pd.1 = true) → fan_out add m pairs = m) ∧
  (∀ k,
     (∀ pd, pd ∈ pairs → is_constant pd.1 = false → unique_id pd.1 ≠ k) →
     fan_out add m pairs !! k = m !! k) ∧
  (∀ pre p x post,
     pairs = pre ++ (p, x) :: post →
     is_constant p = false → m !! unique_id p = None →
     (∀ pd, pd ∈ pre → is_constant pd.1 = false → unique_id pd.1 ≠ unique_id p) →
     fan_out add m pairs !! unique_id p
     = Some (foldl add x (contributions_of (unique_id p) post))) ∧
  (∀ pre p x,
     pairs = pre ++ [(p, x)] →
     is_constant p = false → m !! unique_id p = None →
     (∀ pd, pd ∈ pre → is_constant pd.1 = true) →
     fan_out add m pairs = <[unique_id p := x]> m) ∧
  (∀ p x, is_constant p = true → add_contribution add m (p, x) = m) ∧
  (∀ p x,
     is_constant p = false → m !! unique_id p = None →
     add_contribution add m (p, x) = <[unique_id p := x]> m ∧
     add_contribution add m (p, x) !! unique_id p = Some x).
Proof.
  split_and!.
  - intros var d tr Hleaf Hd <-.
    rewrite (backprop_step_Some add _ _ _ d Hd). unfold event_of.
    by rewrite Hleaf.
  - revert m. induction pairs as [|[p x] pairs' IH]; intros m; [done|].
    unfold fan_out in *. cbn [foldl]. rewrite filter_cons.
    destruct (is_constant p) eqn:Hc.
    + rewrite decide_False by (simpl; congruence).
      rewrite add_contribution_constant by done. apply IH.
    + rewrite decide_True by done. cbn [foldl]. apply IH.
  - apply fan_out_constants.
  - intros k Hk. rewrite fan_out_lookup, contributions_of_none by done.
    apply total_of_nil.
  - intros pre p x post -> Hc Hnone Hpre.
    rewrite fan_out_lookup, contributions_of_app, Hnone.
    rewrite contributions_of_none by done.
    unfold contributions_of. cbn [omap list_omap fst snd app].
    rewrite Hc, decide_True by done. done.
  - intros pre p x -> Hc Hnone Hpre.
    unfold fan_out. rewrite foldl_app. fold (fan_out add m pre).
    rewrite fan_out_constants by done. cbn [foldl].
    unfold add_contribution. by rewrite Hc, Hnone.
  - intros p x. apply add_contribution_constant.
  - intros p x Hc Hnone. unfold add_contribution. rewrite Hc, Hnone.
    split; [done|apply lookup_insert_eq].
Qed.
End fan_out_claims.

(** ** Context *)

Section context_claims.
Context {V : Type}.

Lemma save_for_backward_no_grad (ctx : Context V) (values : list V) :
  no_grad ctx = true → save_for_backward ctx values = ctx.
Proof. unfold save_for_backward. by intros ->. Qed.

Lemma save_for_backward_grad (ctx : Context V) (values : list V) :
  no_grad ctx = false →
  save_for_backward ctx values = mkContext false values.
Proof. unfold save_for_backward. by intros ->. Qed.

Lemma save_for_backward_calls_no_grad (ctx : Context V) (calls : list (list V)) :
  no_grad ctx = true → foldl save_for_backward ctx calls = ctx.
Proof.
  intros Hng. induction calls as [|values calls IH]; [done|].
  simpl. by rewrite save_for_backward_no_grad.
Qed.

Lemma save_for_backward_calls_grad (ctx : Context V) (calls : list (list V)) :
  no_grad ctx = false →
  saved_tensors (foldl save_for_backward ctx calls)
  = default (saved_values ctx) (last calls).
Proof.
  revert ctx. induction calls as [|values calls IH]; intros ctx Hng; [done|].
  cbn [foldl]. rewrite save_for_backward_grad by done. rewrite IH by done.
  destruct calls as [|c calls]; [done|].
  change (last (values :: c :: calls)) with (last (c :: calls)).
  destruct (last (c :: calls)) eqn:Hlast; [done|]. by apply last_None in Hlast.
Qed.

(** C8: a Context constructed with [no_grad=True] is left as it is by any
    calls of [save_for_backward], so [saved_values] is unchanged and, the
    field starting empty, [saved_tensors] is empty; on a Context constructed
    with [no_grad=False], or with the default, [saved_tensors] is the tuple
    of values of the most recent call, and empty when there was none. *)
Theorem context_save_for_backward (calls : list (list V)) :
  (∀ sv : option (list V),
     foldl save_for_backward (Context_init (Some true) sv) calls
     = Context_init (Some true) sv) ∧
  saved_tensors (foldl save_for_backward (Context_init (Some true) None) calls) = [] ∧
  saved_tensors (foldl save_for_backward (Context_init (Some false) None) calls)
  = default [] (last calls) ∧
  saved_tensors (foldl save_for_backward (Context_init None None) calls)
  = default [] (last calls).
Proof.
  split_and!.
  - intros sv. by apply save_for_backward_calls_no_grad.
  - by rewrite save_for_backward_calls_no_grad.
  - by rewrite save_for_backward_calls_grad.
  - by rewrite save_for_backward_calls_grad.
Qed.
End context_claims.

(** ** central_difference *)

Section central_difference_claims.
Import CentralDifference.
Context {V : Type}.
Context (fadd fsub fdiv : V → V → V) (two : V) (is_zero : V → bool).

Lemma py_index_lt (len : nat) (arg : Z) (i : nat) :
  py_index len arg = Some i → i < len.
Proof. unfold py_index. repeat case_decide; intros [=]; lia. Qed.

Lemma py_index_nonneg (len : nat) (arg : Z) :
  (0 ≤ arg < Z.of_nat len)%Z → py_index len arg = Some (Z.to_nat arg).
Proof. intros. unfold py_index. by rewrite decide_True. Qed.

Lemma list_modify_Some (l : list V) (arg : Z) (g : V → V) (i : nat) (x : V) :
  py_index (length l) arg = Some i → l !! i = Some x →
  list_modify l arg g = Some (<[i := g x]> l).
Proof. intros Hi Hx. unfold list_modify. rewrite Hi. simpl. by rewrite Hx. Qed.

(** C9: for an index [arg] in range (position [i] of [vals], counted from
    the end when [arg] is negative) and [epsilon] not zero,
    [central_difference] returns [(f(right) - f(left)) / epsilon] where
    [right] and [left] are [vals] with the value at position [i] increased,
    respectively decreased, by [epsilon / 2], and every other position
    unchanged. *)
Theorem central_difference_spec (f : list V → V) (vals : list V) (arg : Z)
    (epsilon : V) (i : nat) :
  py_index (length vals) arg = Some i →
  is_zero epsilon = false →
  ∃ x left_vals right_vals,
    vals !! i = Some x ∧
    left_vals !! i = Some (fsub x (fdiv epsilon two)) ∧
    right_vals !! i = Some (fadd x (fdiv epsilon two)) ∧
    length left_vals = length vals ∧ length right_vals = length vals ∧
    (∀ j, j ≠ i → left_vals !! j = vals !! j ∧ right_vals !! j = vals !! j) ∧
    central_difference fadd fsub fdiv two is_zero f vals arg epsilon
    = Some (fdiv (fsub (f right_vals) (f left_vals)) epsilon).
Proof.
  intros Hi Heps. pose proof (py_index_lt _ _ _ Hi) as Hlt.
  destruct (lookup_lt_is_Some_2 vals i Hlt) as [x Hx].
  exists x, (<[i := fsub x (fdiv epsilon two)]> vals),
    (<[i := fadd x (fdiv epsilon two)]> vals).
  split_and!; [done| | | | | |].
  - by apply list_lookup_insert_eq.
  - by apply list_lookup_insert_eq.
  - apply length_insert.
  - apply length_insert.
  - intros j Hj. by rewrite !list_lookup_insert_ne by done.
  - unfold central_difference.
    rewrite (list_modify_Some _ _ _ i x Hi Hx). cbn [mbind option_bind].
    rewrite (list_modify_Some _ _ _ i x Hi Hx). cbn [mbind option_bind].
    by rewrite Heps.
Qed.
End central_difference_claims.

(** * The properties on the example graphs *)

Lemma chain_graph_linear_chain :
  linear_chain (G := Examples.chain_graph) Z.mul 0 1 2 5%Z 7%Z.
Proof. split; simpl; repeat split; lia. Qed.

Lemma diamond_graph_diamond :
  diamond (G := Examples.diamond_graph) 0 1 2 3 (λ d, d * 2)%Z (λ d, d * 3)%Z.
Proof. split; simpl; repeat split; lia. Qed.

Lemma backpropagate_diamond_witness :
  backpropagate (G := Examples.diamond_graph) 0%Z Z.add 3 3 1%Z
  = Some [ChainRule 3 1%Z; ChainRule 2 1%Z; ChainRule 1 1%Z;
          AccumulateDerivative 0 (1 * 2 + 1 * 3)%Z].
Proof.
  apply (backpropagate_diamond (G := Examples.diamond_graph) 0%Z Z.add
           0 1 2 3 (λ d, d * 2)%Z (λ d, d * 3)%Z 1%Z 3).
  - intros x. lia.
  - intros x y. lia.
  - exact diamond_graph_diamond.
  - lia.
Defined.

(** On [detached_graph], from totals that hold the entry of the output [2]
    only: the step on [2] returns, the entry of the leaf [0] is created by
    the loop, and the constant [1] gets none. *)
Lemma fan_out_constant_and_missing_witness :
  backprop_step (G := Examples.detached_graph) Z.add ({[3%Z := 4%Z]}, []) 2
  = Some (fan_out (G := Examples.detached_graph) Z.add {[3%Z := 4%Z]}
            [(0, 4%Z); (1, 4%Z)],
          [ChainRule 2 4%Z]) ∧
  fan_out (G := Examples.detached_graph) Z.add {[3%Z := 4%Z]}
    [(0, 4%Z); (1, 4%Z)] !! 1%Z = Some 4%Z ∧
  fan_out (G := Examples.detached_graph) Z.add {[3%Z := 4%Z]}
    [(0, 4%Z); (1, 4%Z)] !! 2%Z = None.
Proof.
  destruct (fan_out_constant_and_missing (G := Examples.detached_graph) Z.add
              {[3%Z := 4%Z]} [(0, 4%Z); (1, 4%Z)])
    as (Hstep & _ & _ & Hkeep & Hnew & _).
  split_and!.
  - apply (Hstep 2 4%Z []); reflexivity.
  - apply (Hnew [] 0 4%Z [(1, 4%Z)]); [reflexivity..|].
    intros pd Hpd. by apply elem_of_nil in Hpd.
  - apply (Hkeep 2%Z). intros pd Hpd Hc.
    apply elem_of_cons in Hpd as [->|Hpd]; [simpl; lia|].
    apply elem_of_cons in Hpd as [->|Hpd]; [simpl in Hc; discriminate|].
    by apply elem_of_nil in Hpd.
Defined.

(** ** The chain over floats *)

Module FloatChainFacts.
Import PrimFloat.
#[local] Existing Instance FloatExamples.float_chain_graph.

Lemma float_chain_graph_linear_chain :
  linear_chain PrimFloat.mul 0 1 2 5%float 7%float.
Proof. split; simpl; repeat split; lia. Qed.

(** The run on the chain over floats, for the derivative [0.1], and the run
    on the chain over integers, where the value is [d * g1 * g2]. *)
Lemma backpropagate_chain_witness :
  backpropagate 0%float PrimFloat.add 3 2 0.1%float
  = Some [ChainRule 2 0.1%float;
          ChainRule 1 (0 + 0.1 * 7)%float;
          AccumulateDerivative 0 (0 + (0 + 0.1 * 7) * 5)%float] ∧
  backpropagate (G := Examples.chain_graph) 0%Z Z.add 3 2 1%Z
  = Some [ChainRule 2 1%Z; ChainRule 1 (1 * 7)%Z;
          AccumulateDerivative 0 (1 * 5 * 7)%Z].
Proof.
  split.
  - apply (backpropagate_chain 0%float PrimFloat.add PrimFloat.mul
             0 1 2 5%float 7%float 0.1%float 3).
    + exact float_chain_graph_linear_chain.
    + lia.
  - apply (backpropagate_chain (G := Examples.chain_graph) 0%Z Z.add Z.mul
             0 1 2 5%Z 7%Z 1%Z 3).
    + exact chain_graph_linear_chain.
    + lia.
    + intros x. lia.
    + intros x y. lia.
    + intros x y z. lia.
Defined.

(** On floats the value accumulated on the leaf of the chain is not
    [d * g1 * g2]: for [d = 0.1], [g1 = 5.0] and [g2 = 7.0] the leaf
    receives [3.5000000000000004], and [0.1 * 5.0 * 7.0] is [3.5]. *)
Lemma backpropagate_chain_float_counterexample :
  linear_chain PrimFloat.mul 0 1 2 5%float 7%float ∧
  backpropagate 0%float PrimFloat.add 3 2 0.1%float
  = Some [ChainRule 2 0.1%float;
          ChainRule 1 0.7000000000000001%float;
          AccumulateDerivative 0 3.5000000000000004%float] ∧
  (0.1 * 5 * 7 = 3.5)%float ∧
  3.5000000000000004%float ≠ 3.5%float ∧
  backpropagate 0%float PrimFloat.add 3 2 0.1%float
  ≠ Some [ChainRule 2 0.1%float;
          ChainRule 1 (0.1 * 7)%float;
          AccumulateDerivative 0 (0.1 * 5 * 7)%float].
Proof.
  assert (3.5000000000000004%float ≠ 3.5%float) as Hne.
  { intros Heq.
    assert (PrimFloat.eqb 3.5000000000000004 3.5 = true) as Hb
      by (rewrite Heq; reflexivity).
    vm_compute in Hb. discriminate. }
  assert (backpropagate 0%float PrimFloat.add 3 2 0.1%float
          = Some [ChainRule 2 0.1%float;
                  ChainRule 1 0.7000000000000001%float;
                  AccumulateDerivative 0 3.5000000000000004%float]) as Hrun
    by (vm_compute; reflexivity).
  split_and!.
  - exact float_chain_graph_linear_chain.
  - exact Hrun.
  - vm_compute. reflexivity.
  - exact Hne.
  - intros Heq.
    apply (f_equal (λ tr : option (list (event nat float)),
                      match tr with
                      | Some [_; _; AccumulateDerivative _ x] => PrimFloat.eqb x 3.5
                      | _ => false
                      end)) in Heq.
    vm_compute in Heq. discriminate.
Qed.
End FloatChainFacts.

Section diamond_graph_witnesses.
#[local] Existing Instance Examples.diamond_graph.

Lemma backpropagate_total_is_final_witness :
  ∃ n order final trace,
    (∀ fuel, n ≤ fuel →
       topological_sort fuel 3 = Some order ∧
       backpropagate 0%Z Z.add fuel 3 1%Z = Some trace) ∧
    backprop_loop 0%Z Z.add order 3 1%Z = Some (final, trace) ∧
    ∀ pre v post, order = pre ++ v :: post →
      (∀ c, c ∈ order → v ∈ parents c → c ∈ pre) ∧
      ∃ m1 tr1 d,
        for_each (backprop_step Z.add) (init_derivatives 0%Z order 3 1%Z, []) pre
          = Some (m1, tr1) ∧
        m1 !! unique_id v = Some d ∧
        trace !! length pre = Some (event_of v d) ∧
        contributions (unique_id v) tr1 = contributions (unique_id v) trace ∧
        d = foldl Z.add (if decide (unique_id v = unique_id 3) then 1%Z else 0%Z)
                  (contributions (unique_id v) trace) ∧
        final !! unique_id v = Some d.
Proof.
  apply (backpropagate_total_is_final 0%Z Z.add 3 1%Z).
  - exact ExampleFacts.diamond_graph_unique_ids.
  - exact ExampleFacts.diamond_graph_acyclic.
  - exact ExampleFacts.diamond_graph_chain_rule_on_parents.
Defined.

Lemma backpropagate_leaf_witness :
  ∃ n order trace,
    (∀ fuel, n ≤ fuel →
       topological_sort fuel 3 = Some order ∧
       backpropagate 0%Z Z.add fuel 3 1%Z = Some trace) ∧
    ∀ pre v post, order = pre ++ v :: post → is_leaf v = true →
      (∃ m1 tr1 d,
         for_each (backprop_step Z.add) (init_derivatives 0%Z order 3 1%Z, []) pre
           = Some (m1, tr1) ∧
         m1 !! unique_id v = Some d ∧
         backprop_step Z.add (m1, tr1) v
           = Some (m1, tr1 ++ [AccumulateDerivative v d]) ∧
         trace !! length pre = Some (AccumulateDerivative v d)) ∧
      (∀ d, ChainRule v d ∉ trace).
Proof.
  apply (backpropagate_leaf 0%Z Z.add 3 1%Z).
  exact ExampleFacts.diamond_graph_acyclic.
Defined.

Lemma backpropagate_constant_output_witness :
  topological_sort 1 4 = Some [] ∧
  backpropagate 0%Z Z.add 1 4 1%Z = Some [].
Proof.
  apply (backpropagate_constant_output 0%Z Z.add 4 1%Z 0). reflexivity.
Defined.

Example diamond_graph_run :
  backpropagate 0%Z Z.add 3 3 1%Z
  = Some [ChainRule 3 1%Z; ChainRule 2 1%Z; ChainRule 1 1%Z;
          AccumulateDerivative 0 5%Z].
Proof. vm_compute. reflexivity. Qed.
End diamond_graph_witnesses.

(** A constant that reports a parent is not traversed: the leaf [3] behind
    the constant [1] is reachable through the parent relation and is not in
    the order. *)
Example detached_graph_order :
  topological_sort (G := Examples.detached_graph) 2 2 = Some [2; 0] ∧
  reachable (G := Examples.detached_graph) 2 3 ∧
  is_constant (VariableProtocol := Examples.detached_graph) 3 = false.
Proof.
  split_and!; [by vm_compute| |done].
  apply (rtc_l _ _ 1); [|apply rtc_once]; unfold edge; simpl; set_solver.
Qed.

Lemma central_difference_spec_witness :
  ∃ x left_vals right_vals,
    [2; 3]%Z !! 1 = Some x ∧
    left_vals !! 1 = Some (x - 2 `div` 2)%Z ∧
    right_vals !! 1 = Some (x + 2 `div` 2)%Z ∧
    length left_vals = 2 ∧ length right_vals = 2 ∧
    (∀ j, j ≠ 1 → left_vals !! j = [2; 3]%Z !! j ∧ right_vals !! j = [2; 3]%Z !! j) ∧
    CentralDifference.central_difference Z.add Z.sub Z.div 2%Z (Z.eqb 0)
      (λ l, foldr Z.mul 1%Z l) [2; 3]%Z (-1)%Z 2%Z
    = Some ((foldr Z.mul 1 right_vals - foldr Z.mul 1 left_vals) `div` 2)%Z.
Proof.
  apply (central_difference_spec Z.add Z.sub Z.div 2%Z (Z.eqb 0)
           (λ l, foldr Z.mul 1%Z l) [2; 3]%Z (-1)%Z 2%Z 1); reflexivity.
Defined.


(** * Further properties of the code *)

(** ** topological_sort on any finite graph *)

Section dfs_finite.
Context {node D : Type} {G : VariableProtocol node D}.

Lemma ids_of_elem (nodes : list node) (v : node) :
  v ∈ nodes → unique_id v ∈ ids_of nodes.
Proof. intros Hv. apply elem_of_list_to_set, list_elem_of_fmap_2, Hv. Qed.

Lemma ids_of_size (nodes : list node) : size (ids_of nodes) ≤ length nodes.
Proof.
  unfold ids_of. induction nodes as [|v nodes IH]; [done|].
  rewrite fmap_cons, list_to_set_cons, size_union_alt, size_singleton. simpl.
  pose proof (subseteq_size (list_to_set (unique_id <$> nodes) ∖ {[unique_id v]})
                (list_to_set (unique_id <$> nodes) : gset Z)) as Hsub.
  assert (size (list_to_set (unique_id <$> nodes) ∖ {[unique_id v]} : gset Z)
          ≤ size (list_to_set (unique_id <$> nodes) : gset Z)) by (apply Hsub; set_solver).
  lia.
Qed.

(** The recursion depth is bounded by the number of ids not yet marked. *)
Lemma dfs_terminates (nodes : list node) :
  closed_under_parents nodes →
  ∀ fuel st v,
    v ∈ nodes →
    is_constant v = true ∨ unique_id v ∉ st.1 →
    size (ids_of nodes ∖ st.1) < fuel →
    ∃ st', dfs fuel st v = Some st' ∧ st.1 ⊆ st'.1.
Proof.
  intros Hclosed. induction fuel as [|fuel IH]; intros st v Hv Hfresh Hsize; [lia|].
  rewrite dfs_S. destruct (is_constant v) eqn:Hc; [by exists st|].
  destruct Hfresh as [|Hfresh]; [done|].
  assert (size (ids_of nodes ∖ ({[unique_id v]} ∪ st.1)) < fuel) as Hsize1.
  { assert (ids_of nodes ∖ ({[unique_id v]} ∪ st.1) ⊂ ids_of nodes ∖ st.1) as Hlt.
    { pose proof (ids_of_elem nodes v Hv). set_solver. }
    apply subset_size in Hlt. lia. }
  assert (∀ ws s,
            (∀ w, w ∈ ws → w ∈ nodes) →
            {[unique_id v]} ∪ st.1 ⊆ s.1 →
            ∃ s', for_each
                    (λ s w, if decide (unique_id w ∈ s.1) then Some s else dfs fuel s w)
                    s ws = Some s' ∧ s.1 ⊆ s'.1) as Hloop.
  { induction ws as [|w ws IHws]; intros s Hws Hs; [by exists s|].
    rewrite for_each_cons. case_decide as Hw.
    - cbn [mbind option_bind]. apply IHws; [|done]. intros; apply Hws; by right.
    - destruct (IH s w) as (s1 & -> & Hs1); [apply Hws; left|by right| |].
      { assert (size (ids_of nodes ∖ s.1)
                ≤ size (ids_of nodes ∖ ({[unique_id v]} ∪ st.1))).
        { apply subseteq_size. set_solver. }
        lia. }
      cbn [mbind option_bind].
      destruct (IHws s1) as (s' & Hs' & Hsub);
        [intros; apply Hws; by right|set_solver|].
      exists s'. split; [done|set_solver]. }
  destruct (Hloop (parents v) ({[unique_id v]} ∪ st.1, st.2)) as (s2 & -> & Hs2);
    [intros w Hw; by eapply Hclosed|done|].
  eexists. split; [done|]. simpl in *. set_solver.
Qed.

End dfs_finite.

(** ** topological_sort without assumptions on the ids *)

Section dfs_sound.
Context {node D : Type} {G : VariableProtocol node D}.

(** What [dfs(v)] on an unmarked non-constant node does, whatever the graph:
    it appends nodes above [v] with fresh ids, and [v] last. *)
Lemma dfs_sound (fuel : nat) (st st' : gset Z * list node) (v : node) :
  dfs fuel st v = Some st' →
  is_constant v = false → unique_id v ∉ st.1 → marked_inv st →
  ∃ new,
    st'.2 = st.2 ++ new ++ [v] ∧
    st.1 ⊆ st'.1 ∧
    (∀ x, x ∈ new → reach v x) ∧
    (∀ x, x ∈ new ++ [v] → unique_id x ∉ st.1) ∧
    marked_inv st'.
Proof.
  revert st st' v. induction fuel as [|fuel IH]; intros st st' v; [done|].
  rewrite dfs_S. intros Hdfs Hv Hvm Hinv. rewrite Hv in Hdfs.
  assert (∀ ws s s',
            (∀ w, w ∈ ws → w ∈ parents v) →
            for_each
              (λ s w, if decide (unique_id w ∈ s.1) then Some s else dfs fuel s w)
              s ws = Some s' →
            {[unique_id v]} ∪ st.1 ⊆ s.1 → marked_inv s →
            ∃ more,
              s'.2 = s.2 ++ more ∧ s.1 ⊆ s'.1 ∧
              (∀ x, x ∈ more → reach v x ∧ unique_id x ∉ s.1) ∧
              marked_inv s') as Hloop.
  { induction ws as [|w ws IHws]; intros s s' Hws Hrun Hs Hsinv.
    { injection Hrun as <-. exists []. rewrite app_nil_r.
      split_and!; [done..| |done]. by intros ? ?%elem_of_nil. }
    rewrite for_each_cons in Hrun.
    assert (∀ w', w' ∈ ws → w' ∈ parents v) as Hws' by (intros; apply Hws; by right).
    case_decide as Hw.
    { cbn [mbind option_bind] in Hrun. by apply IHws. }
    destruct (dfs fuel s w) as [s1|] eqn:Hcall; [|done].
    cbn [mbind option_bind] in Hrun.
    destruct (is_constant w) eqn:Hc.
    { apply dfs_constant_inv in Hcall as ->; [|done]. by apply IHws. }
    destruct (IH s s1 w Hcall Hc Hw Hsinv) as (new & HR1 & HM1 & Hreach & Hfresh & Hinv1).
    destruct (IHws s1 s' Hws' Hrun) as (more & HR' & HM' & Hmore & Hinv');
      [set_solver|done|].
    exists (new ++ [w] ++ more). split_and!; [|set_solver| |done].
    - by rewrite HR', HR1, <-!app_assoc.
    - assert (reach v w) as Hvw.
      { eapply reach_parent; [by apply reach_output|apply Hws; left|done]. }
      intros x [Hx|[->%list_elem_of_singleton|Hx]%elem_of_app]%elem_of_app.
      + split; [|apply Hfresh; set_solver].
        eapply reach_trans; [done|by apply Hreach].
      + split; [done|apply Hfresh; set_solver].
      + destruct (Hmore x Hx) as [? Hnot]. split; [done|]. set_solver. }
  destruct (for_each _ _ (parents v)) as [s2|] eqn:Hrun; [|done].
  cbn [mbind option_bind] in Hdfs. injection Hdfs as <-.
  destruct (Hloop (parents v) _ s2 (λ w Hw, Hw) Hrun) as (more & HR2 & HM2 & Hmore & Hinv2);
    [done| |].
  { destruct Hinv as [HM HND HC]. split; simpl; [|done..].
    intros u Hu. apply elem_of_union. right. by apply HM. }
  simpl in HR2, HM2.
  exists more. simpl. split_and!.
  - by rewrite HR2, <-app_assoc.
  - set_solver.
  - intros x Hx. by apply Hmore.
  - intros x [Hx| ->%list_elem_of_singleton]%elem_of_app; [|done].
    destruct (Hmore x Hx) as [_ Hnot]. simpl in Hnot. set_solver.
  - destruct Hinv2 as [HM HND HC]. split; simpl.
    + intros u [Hu| ->%list_elem_of_singleton]%elem_of_app; [by apply HM|].
      set_solver.
    + rewrite fmap_app. apply NoDup_app. split_and!; [done| |apply NoDup_singleton].
      intros k Hk ->%list_elem_of_singleton.
      apply list_elem_of_fmap in Hk as (x & Hid & Hx).
      rewrite HR2 in Hx. apply elem_of_app in Hx as [Hx|Hx].
      * apply Hvm. rewrite Hid. by apply (minv_marked _ Hinv).
      * destruct (Hmore x Hx) as [_ Hnot]. simpl in Hnot. set_solver.
    + intros u [Hu| ->%list_elem_of_singleton]%elem_of_app; [by apply HC|done].
Qed.

Lemma topological_sort_sound (fuel : nat) (output : node) (order : list node) :
  topological_sort fuel output = Some order →
  is_constant output = false →
  head order = Some output ∧
  NoDup (unique_id <$> order) ∧
  (∀ x, x ∈ order → reach output x).
Proof.
  unfold topological_sort.
  destruct (dfs fuel (∅, []) output) as [st|] eqn:Hdfs; [|done].
  intros [= <-] Hout.
  apply dfs_sound in Hdfs as (new & HR & _ & Hreach & _ & [_ HND _]);
    [|done|set_solver|].
  2:{ split; simpl; [by intros ? ?%elem_of_nil|apply NoDup_nil_2|
                     by intros ? ?%elem_of_nil]. }
  simpl in HR. split_and!.
  - by rewrite HR, reverse_snoc.
  - by rewrite fmap_reverse, reverse_Permutation.
  - intros x Hx. rewrite elem_of_reverse, HR in Hx.
    apply elem_of_app in Hx as [Hx| ->%list_elem_of_singleton];
      [by apply Hreach|by apply reach_output].
Qed.

Lemma topological_sort_nonempty_constant (fuel : nat) (output : node)
    (order : list node) :
  topological_sort fuel output = Some order →
  ∀ x, x ∈ order → reach output x.
Proof.
  intros Hsort x Hx. destruct (is_constant output) eqn:Hout.
  - destruct fuel; [done|].
    rewrite topological_sort_constant in Hsort by done.
    injection Hsort as <-. by apply elem_of_nil in Hx.
  - by apply (topological_sort_sound fuel output order).
Qed.
End dfs_sound.

Section topological_sort_extras.
Context {node D : Type} {G : VariableProtocol node D}.

(** X1: on a finite graph, cyclic or not and whatever its ids,
    [topological_sort] returns: the recursion is never deeper than the
    number of nodes, because a node is marked before its parents are
    visited and a marked id is never entered again. *)
Theorem topological_sort_terminates (nodes : list node) (output : node) :
  closed_under_parents nodes → output ∈ nodes →
  ∃ order, ∀ fuel, length nodes < fuel → topological_sort fuel output = Some order.
Proof.
  intros Hclosed Hout.
  destruct (dfs_terminates nodes Hclosed (S (length nodes)) (∅, []) output)
    as (st & Hst & _); [done|right; set_solver| |].
  { pose proof (ids_of_size nodes).
    assert (size (ids_of nodes ∖ (∅ : gset Z)) ≤ size (ids_of nodes))
      by (apply subseteq_size; set_solver).
    simpl. lia. }
  exists (reverse st.2). intros fuel Hfuel. unfold topological_sort.
  rewrite (dfs_mono (S (length nodes)) fuel _ st output); [done|lia|done].
Qed.

(** X2: whatever the graph (ids shared by several nodes, cycles), an order
    returned by [topological_sort] holds pairwise distinct ids, only
    non-constant nodes, each reached from the output through non-constant
    nodes, and starts with the output when the output is not constant. *)
Theorem topological_sort_distinct_ids (fuel : nat) (output : node) (order : list node) :
  topological_sort fuel output = Some order →
  NoDup (unique_id <$> order) ∧
  (∀ x, x ∈ order → reach output x ∧ is_constant x = false) ∧
  (is_constant output = false → head order = Some output).
Proof.
  intros Hsort. split_and!.
  - destruct (is_constant output) eqn:Hout.
    + destruct fuel; [done|]. rewrite topological_sort_constant in Hsort by done.
      injection Hsort as <-. apply NoDup_nil_2.
    + by apply (topological_sort_sound fuel output order).
  - intros x Hx.
    pose proof (topological_sort_nonempty_constant fuel output order Hsort x Hx).
    split; [done|by eapply reach_nonconst].
  - intros Hout. by apply (topological_sort_sound fuel output order).
Qed.
End topological_sort_extras.

Lemma cycle_graph_closed :
  closed_under_parents (G := CyclicExample.cycle_graph) [0; 1].
Proof. intros [|[|v]] w Hv Hw; simpl in Hw; set_unfold; lia. Qed.

Lemma topological_sort_terminates_witness :
  ∃ order, ∀ fuel, length [0; 1] < fuel →
    topological_sort (G := CyclicExample.cycle_graph) fuel 0 = Some order.
Proof.
  apply (topological_sort_terminates (G := CyclicExample.cycle_graph) [0; 1] 0).
  - exact cycle_graph_closed.
  - set_solver.
Defined.

Lemma topological_sort_distinct_ids_witness :
  NoDup (unique_id (VariableProtocol := CyclicExample.cycle_graph) <$> [0; 1]) ∧
  (∀ x, x ∈ [0; 1] →
     reach (G := CyclicExample.cycle_graph) 0 x ∧
     is_constant (VariableProtocol := CyclicExample.cycle_graph) x = false) ∧
  (is_constant (VariableProtocol := CyclicExample.cycle_graph) 0 = false →
   head [0; 1] = Some 0).
Proof.
  apply (topological_sort_distinct_ids (G := CyclicExample.cycle_graph) 3 0 [0; 1]).
  vm_compute. reflexivity.
Defined.

(** ** backpropagate on any graph *)

Section backpropagate_extras.
Context {node D : Type} {G : VariableProtocol node D}.
Context (zero : D) (add : D → D → D).

Lemma event_node_event_of (v : node) (d : D) : event_node (event_of v d) = v.
Proof. unfold event_of. by destruct (is_leaf v). Qed.

Lemma event_nodes (l : list node) (evs : list (event node D)) :
  Forall2 (λ c e, ∃ d, e = event_of c d) l evs → event_node <$> evs = l.
Proof.
  induction 1 as [|c e l evs [d ->] _ IH]; [done|].
  by rewrite fmap_cons, IH, event_node_event_of.
Qed.

Lemma backpropagate_run (fuel : nat) (output : node) (seed : D) (order : list node) :
  topological_sort fuel output = Some order →
  ∃ final trace,
    backprop_loop zero add order output seed = Some (final, trace) ∧
    backpropagate zero add fuel output seed = Some trace ∧
    Forall2 (λ v e, ∃ d, e = event_of v d) order trace.
Proof.
  intros Hsort.
  destruct (backprop_loop_total zero add order output seed) as [[final trace] Hloop].
  exists final, trace. split_and!; [done| |].
  - unfold backpropagate. rewrite Hsort. cbn [mbind option_bind]. by rewrite Hloop.
  - apply backprop_run_inv in Hloop as (evs & Htr & Hevs & _).
    simpl in Htr. by subst evs.
Qed.

(** X3: whenever the sort returns, [backpropagate] returns too: no read of
    [derivatives[var.unique_id]] misses its key, whatever [chain_rule]
    returns. It makes exactly one call per variable of the order, in that
    order: [accumulate_derivative] where [is_leaf()] holds and [chain_rule]
    elsewhere. *)
Theorem backpropagate_one_call_per_variable (fuel : nat) (output : node) (seed : D)
    (order : list node) :
  topological_sort fuel output = Some order →
  ∃ trace,
    backpropagate zero add fuel output seed = Some trace ∧
    event_node <$> trace = order ∧
    Forall2 (λ v e, ∃ d, e = event_of v d) order trace.
Proof.
  intros Hsort.
  destruct (backpropagate_run fuel output seed order Hsort)
    as (final & trace & _ & Hrun & Hevs).
  exists trace. split_and!; [done| |done]. by apply event_nodes.
Qed.

(** X4: when the output is not constant, the first call of [backpropagate]
    is on the output and carries exactly the derivative passed in. *)
Theorem backpropagate_first_call (fuel : nat) (output : node) (seed : D)
    (order : list node) :
  topological_sort fuel output = Some order →
  is_constant output = false →
  ∃ rest, backpropagate zero add fuel output seed = Some (event_of output seed :: rest).
Proof.
  intros Hsort Hout.
  destruct (topological_sort_sound fuel output order Hsort Hout) as (Hhead & _ & _).
  destruct order as [|v post]; [done|]. injection Hhead as ->.
  destruct (backpropagate_run fuel output seed (output :: post) Hsort)
    as (final & trace & Hloop & Hrun & _).
  destruct (backprop_loop_split zero add (output :: post) [] post output output seed
              final trace Hloop eq_refl)
    as (m1 & tr1 & d & tr3 & Hpre & Hd & Htrace & _).
  injection Hpre as <- <-.
  rewrite init_derivatives_lookup, decide_True in Hd by done.
  injection Hd as <-. exists tr3. by rewrite Hrun, Htrace.
Qed.

(** X5: every call of [backpropagate] is on a node of the reachable
    non-constant subgraph: a constant, and a node that the output reaches
    only through constants, never gets [accumulate_derivative] or
    [chain_rule] called. *)
Theorem backpropagate_constant_pruning (fuel : nat) (output : node) (seed : D)
    (trace : list (event node D)) :
  backpropagate zero add fuel output seed = Some trace →
  ∀ e, e ∈ trace →
    reach output (event_node e) ∧ is_constant (event_node e) = false.
Proof.
  unfold backpropagate.
  destruct (topological_sort fuel output) as [order|] eqn:Hsort; [|done].
  intros Hrun e He.
  destruct (backpropagate_run fuel output seed order Hsort)
    as (final & trace' & _ & Hrun' & Hevs).
  unfold backpropagate in Hrun'. rewrite Hsort in Hrun'.
  rewrite Hrun in Hrun'. injection Hrun' as <-.
  destruct (event_of_elem _ _ _ Hevs He) as (c & d & Hc & ->).
  rewrite event_node_event_of.
  pose proof (topological_sort_nonempty_constant fuel output order Hsort c Hc).
  split; [done|by eapply reach_nonconst].
Qed.

(** X6: when the output is not constant and all its parents are, the order
    is the output alone and the only call is on the output, with the
    derivative passed in: nothing is accumulated anywhere else. *)
Theorem backpropagate_constant_parents (fuel : nat) (output : node) (seed : D) :
  is_constant output = false →
  (∀ w, w ∈ parents output → is_constant w = true) →
  2 ≤ fuel →
  topological_sort fuel output = Some [output] ∧
  backpropagate zero add fuel output seed = Some [event_of output seed].
Proof.
  intros Hout Hparents Hfuel.
  assert (topological_sort 2 output = Some [output]) as Hsort2.
  { unfold topological_sort. rewrite dfs_S, Hout.
    assert (∀ ws s, (∀ w, w ∈ ws → is_constant w = true) →
              for_each
                (λ s w, if decide (unique_id w ∈ s.1) then Some s else dfs 1 s w)
                s ws = Some s) as Hloop.
    { induction ws as [|w ws IH]; intros s Hws; [done|].
      rewrite for_each_cons. case_decide.
      - cbn [mbind option_bind]. apply IH. intros; apply Hws; by right.
      - rewrite dfs_constant by (apply Hws; left).
        cbn [mbind option_bind]. apply IH. intros; apply Hws; by right. }
    by rewrite Hloop. }
  pose proof (topological_sort_mono 2 fuel output _ Hfuel Hsort2) as Hsort.
  split; [done|].
  unfold backpropagate. rewrite Hsort. cbn [mbind option_bind].
  unfold backprop_loop. rewrite for_each_cons.
  rewrite (backprop_step_Some add _ _ _ seed)
    by (rewrite init_derivatives_lookup; by rewrite decide_True).
  done.
Qed.
End backpropagate_extras.


Section backpropagate_extras_witnesses.
#[local] Existing Instance Examples.diamond_graph.

Lemma backpropagate_one_call_per_variable_witness :
  ∃ trace,
    backpropagate 0%Z Z.add 4 3 1%Z = Some trace ∧
    event_node <$> trace = [3; 2; 1; 0] ∧
    Forall2 (λ v e, ∃ d, e = event_of v d) [3; 2; 1; 0] trace.
Proof.
  apply (backpropagate_one_call_per_variable 0%Z Z.add 4 3 1%Z [3; 2; 1; 0]).
  vm_compute. reflexivity.
Defined.

Lemma backpropagate_first_call_witness :
  ∃ rest, backpropagate 0%Z Z.add 4 3 1%Z = Some (event_of 3 1%Z :: rest).
Proof.
  apply (backpropagate_first_call 0%Z Z.add 4 3 1%Z [3; 2; 1; 0]).
  - vm_compute. reflexivity.
  - reflexivity.
Defined.
End backpropagate_extras_witnesses.

Lemma backpropagate_constant_pruning_witness :
  reach (G := Examples.detached_graph) 2
    (event_node (AccumulateDerivative 0 1%Z)) ∧
  is_constant (VariableProtocol := Examples.detached_graph)
    (event_node (AccumulateDerivative 0 1%Z)) = false.
Proof.
  apply (backpropagate_constant_pruning (G := Examples.detached_graph)
           0%Z Z.add 2 2 1%Z [ChainRule 2 1%Z; AccumulateDerivative 0 1%Z]).
  - vm_compute. reflexivity.
  - right. left.
Defined.

(** The output [0] of [constant_parents_graph] has the two constant parents
    [1] and [2]: neither is visited and neither receives a derivative. *)
Lemma backpropagate_constant_parents_witness :
  topological_sort (G := Examples.constant_parents_graph) 2 0 = Some [0] ∧
  backpropagate (G := Examples.constant_parents_graph) 0%Z Z.add 2 0 1%Z
  = Some [ChainRule 0 1%Z].
Proof.
  apply (backpropagate_constant_parents (G := Examples.constant_parents_graph)
           0%Z Z.add 2 0 1%Z).
  - reflexivity.
  - intros w Hw. simpl in Hw.
    apply elem_of_cons in Hw as [->|Hw]; [reflexivity|].
    apply elem_of_cons in Hw as [->|Hw]; [reflexivity|].
    by apply elem_of_nil in Hw.
  - lia.
Defined.

(** ** The fan-out as a whole *)

Section fan_out_extras.
Context {node D : Type} {G : VariableProtocol node D}.
Context (add : D → D → D).

(** X7: the fan-out leaves alone every key that is not the id of a
    non-constant parent among the pairs, and never removes an entry. *)
Theorem fan_out_frame (m : gmap Z D) (pairs : list (node * D)) (k : Z) :
  ((∀ p x, (p, x) ∈ pairs → is_constant p = false → unique_id p ≠ k) →
   fan_out add m pairs !! k = m !! k) ∧
  (is_Some (m !! k) → is_Some (fan_out add m pairs !! k)).
Proof.
  rewrite fan_out_lookup. split.
  - intros Hk. by rewrite contributions_of_nil, total_of_nil.
  - apply total_of_is_Some.
Qed.

Lemma total_of_swap (init : option D) (x y : D) :
  (∀ x y, add x y = add y x) →
  (∀ x y z, add x (add y z) = add (add x y) z) →
  total_of add init [x; y] = total_of add init [y; x].
Proof.
  intros Hcomm Hassoc. destruct init as [i|]; simpl; f_equal; [|done].
  by rewrite <-!Hassoc, (Hcomm x y).
Qed.

Lemma add_contribution_swap (m : gmap Z D) (a b : node * D) :
  (∀ x y, add x y = add y x) →
  (∀ x y z, add x (add y z) = add (add x y) z) →
  add_contribution add (add_contribution add m a) b
  = add_contribution add (add_contribution add m b) a.
Proof.
  intros Hcomm Hassoc. apply map_eq. intros k.
  rewrite !add_contribution_lookup, !total_of_app.
  destruct a as [p x], b as [q y]. unfold contributions_of. simpl.
  destruct (is_constant p), (is_constant q); simpl; try done;
    repeat case_decide; simpl; try done.
  by apply total_of_swap.
Qed.

(** X8: when [+] on derivatives is associative and commutative, the totals
    after the fan-out do not depend on the order in which [chain_rule]
    lists its pairs. *)
Theorem fan_out_permutation (m : gmap Z D) (pairs pairs' : list (node * D)) :
  (∀ x y, add x y = add y x) →
  (∀ x y z, add x (add y z) = add (add x y) z) →
  pairs ≡ₚ pairs' →
  fan_out add m pairs = fan_out add m pairs'.
Proof.
  intros Hcomm Hassoc Hperm. revert m. unfold fan_out.
  induction Hperm as [|a l l' _ IH|a b l|l1 l2 l3 _ IH1 _ IH2]; intros m; simpl.
  - done.
  - apply IH.
  - by rewrite add_contribution_swap.
  - by rewrite IH1, IH2.
Qed.

(** X9: after the fan-out the entry of every key is its previous value (or
    nothing) with all the contributions of the pairs whose non-constant
    parent has that id added one after the other: a parent listed twice
    receives both contributions. *)
Theorem fan_out_adds_every_contribution (m : gmap Z D) (pairs : list (node * D))
    (p : node) (x y : D) (k : Z) :
  fan_out add m pairs !! k = total_of add (m !! k) (contributions_of k pairs) ∧
  (is_constant p = false →
   fan_out add m [(p, x); (p, y)] !! unique_id p
   = Some (match m !! unique_id p with
           | Some old => add (add old x) y
           | None => add x y
           end)).
Proof.
  split; [apply fan_out_lookup|].
  intros Hp. rewrite fan_out_lookup. unfold contributions_of.
  cbn [omap list_omap fst snd]. rewrite Hp. rewrite !decide_True by done.
  by destruct (m !! unique_id p).
Qed.
End fan_out_extras.

Lemma fan_out_permutation_witness :
  fan_out (G := Examples.diamond_graph) Z.add ∅ [(1, 5%Z); (2, 7%Z); (1, 1%Z)]
  = fan_out (G := Examples.diamond_graph) Z.add ∅ [(1, 1%Z); (1, 5%Z); (2, 7%Z)].
Proof.
  apply (fan_out_permutation (G := Examples.diamond_graph) Z.add).
  - intros x y. lia.
  - intros x y z. lia.
  - symmetry. exact (Permutation_cons_append [(1, 5%Z); (2, 7%Z)] (1, 1%Z)).
Defined.

(** ** central_difference: errors, negative indices, exactness *)

Section central_difference_extras.
Import CentralDifference.
Context {V : Type}.
Context (fadd fsub fdiv : V → V → V) (two : V) (is_zero : V → bool).


Lemma py_index_negative (len : nat) (arg : Z) :
  (0 ≤ arg < Z.of_nat len)%Z →
  py_index len (arg - Z.of_nat len) = py_index len arg.
Proof.
  intros Harg. unfold py_index.
  rewrite (decide_True (P := (0 ≤ arg < _)%Z)) by done.
  rewrite decide_False by lia. rewrite decide_True by lia. f_equal. lia.
Qed.


(** X11: a negative index counts from the end: [arg - len] selects the
    same argument as [arg]. *)
Theorem central_difference_negative_index (f : list V → V) (vals : list V)
    (arg : Z) (epsilon : V) :
  (0 ≤ arg < Z.of_nat (length vals))%Z →
  central_difference fadd fsub fdiv two is_zero f vals
    (arg - Z.of_nat (length vals)) epsilon
  = central_difference fadd fsub fdiv two is_zero f vals arg epsilon.
Proof.
  intros Harg. unfold central_difference, list_modify.
  by rewrite py_index_negative.
Qed.
End central_difference_extras.

Lemma central_difference_negative_index_witness :
  CentralDifference.central_difference Z.add Z.sub Z.div 2%Z (Z.eqb 0)
    (λ l, foldr Z.mul 1%Z l) [2; 3]%Z (1 - 2)%Z 2%Z
  = CentralDifference.central_difference Z.add Z.sub Z.div 2%Z (Z.eqb 0)
      (λ l, foldr Z.mul 1%Z l) [2; 3]%Z 1%Z 2%Z.
Proof.
  apply (central_difference_negative_index Z.add Z.sub Z.div 2%Z (Z.eqb 0)
           (λ l, foldr Z.mul 1%Z l) [2; 3]%Z 1%Z 2%Z).
  simpl. lia.
Defined.

Module RationalDifferenceFacts.
Import Qcanon Field.
Import CentralDifference RationalDifference.
Local Open Scope Qc_scope.

(** X12: in exact arithmetic the central difference of a quadratic
    [a*y*y + b*y + c] in the chosen argument is its derivative
    [2*a*x + b], for every non-zero [epsilon]. *)
Theorem central_difference_quadratic (a b c : Qc) (vals : list Qc) (arg : Z)
    (epsilon x : Qc) (i : nat) :
  py_index (length vals) arg = Some i →
  vals !! i = Some x →
  epsilon ≠ 0 →
  central_difference Qcplus Qcminus Qcdiv (1 + 1) Qc_is_zero
    (quadratic a b c i) vals arg epsilon
  = Some ((1 + 1) * a * x + b).
Proof.
  intros Hi Hx Heps. unfold central_difference.
  rewrite !(list_modify_Some _ _ _ i x Hi Hx). cbn [mbind option_bind].
  unfold Qc_is_zero. rewrite bool_decide_eq_false_2 by done.
  unfold quadratic.
  rewrite !list_lookup_insert_eq by (by eapply lookup_lt_Some).
  simpl. f_equal. field. split; [|done]. intros Heq. inversion Heq.
Qed.

Lemma central_difference_quadratic_witness :
  central_difference Qcplus Qcminus Qcdiv (1 + 1) Qc_is_zero (quadratic 1 0 0 0%nat)
    [1] 0%Z 1
  = Some ((1 + 1) * 1 * 1 + 0).
Proof.
  apply (central_difference_quadratic 1 0 0 [1] 0%Z 1 1 0%nat);
    [reflexivity|reflexivity|]. intros Heq. inversion Heq.
Defined.
End RationalDifferenceFacts.


(** * module.py *)

Example module_tree_named_parameters :
  ModuleTree.named_parameters ModuleExamples.tree = [("p1", 1); ("a.p2", 2)] ∧
  ModuleTree.parameters ModuleExamples.tree = [1; 2] ∧
  ModuleTree.training <$> ModuleTree.descendants (ModuleTree.train ModuleExamples.tree)
  = [true; true; true].
Proof. by vm_compute. Qed.

Example module_tree_repr :
  ModuleTree.repr ModuleExamples.tree
  = ("A(" +:+ ModuleTree.newline +:+ "  (a): B()" +:+ ModuleTree.newline
     +:+ "  (b): C()" +:+ ModuleTree.newline +:+ ")") ∧
  ModuleTree._addindent ("x" +:+ ModuleTree.newline +:+ "y") 2
  = "x" +:+ ModuleTree.newline +:+ "  y".
Proof. by vm_compute. Qed.


Module ModuleTreeFacts.
Import ModuleTree.

Section tree.
Context {P : Type}.

Lemma train_with_mode (self : PyModule P) : train self = with_mode true self.
Proof.
  induction self as [n ms ps t IH] using PyModule_tree_ind.
  cbn [train with_mode class_name _modules _parameters modules].
  assert ((λ kx : string * PyModule P, (kx.1, train kx.2)) <$> ms
          = (λ kx : string * PyModule P, (kx.1, with_mode true kx.2)) <$> ms) as ->.
  { induction IH as [|km ms Hkm _ IHms]; [done|]. rewrite !fmap_cons. by f_equal; [f_equal|]. }
  case_decide as Hlen; [|done].
  destruct ms; [done|]. simpl in Hlen. discriminate.
Qed.

Lemma eval_with_mode (self : PyModule P) : eval self = with_mode false self.
Proof.
  induction self as [n ms ps t IH] using PyModule_tree_ind.
  cbn [eval with_mode class_name _modules _parameters modules].
  assert ((λ kx : string * PyModule P, (kx.1, eval kx.2)) <$> ms
          = (λ kx : string * PyModule P, (kx.1, with_mode false kx.2)) <$> ms) as ->.
  { induction IH as [|km ms Hkm _ IHms]; [done|]. rewrite !fmap_cons. by f_equal; [f_equal|]. }
  case_decide as Hlen; [|done].
  destruct ms; [done|]. simpl in Hlen. discriminate.
Qed.

Lemma named_parameters_eq (self : PyModule P) :
  named_parameters self
  = _parameters self ++
    mjoin ((λ nm : string * PyModule P,
              (λ np : string * P, (nm.1 +:+ "." +:+ np.1, np.2))
                <$> named_parameters nm.2)
             <$> _modules self).
Proof.
  destruct self as [n ms ps t]. cbn [named_parameters _modules _parameters].
  case_decide as Hlen; [|done]. destruct ms; [|done]. by rewrite app_nil_r.
Qed.

Lemma parameters_eq (self : PyModule P) :
  parameters self
  = (_parameters self).*2 ++
    mjoin ((λ nm : string * PyModule P, parameters nm.2) <$> _modules self).
Proof.
  destruct self as [n ms ps t]. cbn [parameters _modules _parameters].
  case_decide as Hlen; [|done]. destruct ms; [|done]. by rewrite app_nil_r.
Qed.

Lemma with_mode_twice (b b' : bool) (self : PyModule P) :
  with_mode b (with_mode b' self) = with_mode b self.
Proof.
  induction self as [n ms ps t IH] using PyModule_tree_ind.
  cbn [with_mode class_name _modules _parameters]. f_equal.
  rewrite <-list_fmap_compose.
  induction IH as [|km ms Hkm _ IHms]; [done|]. rewrite !fmap_cons.
  f_equal; [|done]. simpl. by rewrite Hkm.
Qed.

Lemma with_mode_named_parameters (b : bool) (self : PyModule P) :
  named_parameters (with_mode b self) = named_parameters self.
Proof.
  induction self as [n ms ps t IH] using PyModule_tree_ind.
  rewrite (named_parameters_eq (with_mode _ _)), (named_parameters_eq (mkModule _ _ _ _)).
  cbn [with_mode class_name _modules _parameters]. f_equal.
  rewrite <-list_fmap_compose.
  induction IH as [|km ms Hkm _ IHms]; [done|]. rewrite !fmap_cons.
  cbn [mjoin list_join]. f_equal; [|done]. simpl. by rewrite Hkm.
Qed.

Lemma with_mode_descendants (b : bool) (self : PyModule P) :
  Forall (λ x, training x = b) (descendants (with_mode b self)) ∧
  class_name <$> descendants (with_mode b self) = class_name <$> descendants self.
Proof.
  induction self as [n ms ps t IH] using PyModule_tree_ind.
  cbn [with_mode descendants class_name _modules _parameters].
  rewrite <-list_fmap_compose.
  assert (Forall (λ x, training x = b)
            (mjoin ((λ nm : string * PyModule P, descendants (with_mode b nm.2)) <$> ms)) ∧
          class_name <$> mjoin ((λ nm : string * PyModule P,
                                   descendants (with_mode b nm.2)) <$> ms)
          = class_name <$> mjoin ((λ nm : string * PyModule P, descendants nm.2) <$> ms))
    as [Hall Hnames].
  { induction IH as [|km ms [Hkm1 Hkm2] _ [IH1 IH2]]; [by split|].
    rewrite !fmap_cons. cbn [mjoin list_join]. rewrite !fmap_app. split.
    - by apply Forall_app.
    - by f_equal. }
  split.
  - by constructor.
  - rewrite !fmap_cons. by f_equal.
Qed.

(** X13: [train] gives every module of the tree the mode [True] and [eval]
    the mode [False]; neither changes the class names of the tree nor what
    [named_parameters] returns. *)
Theorem train_eval_set_every_mode (self : PyModule P) :
  Forall (λ x, training x = true) (descendants (train self)) ∧
  Forall (λ x, training x = false) (descendants (eval self)) ∧
  class_name <$> descendants (train self) = class_name <$> descendants self ∧
  class_name <$> descendants (eval self) = class_name <$> descendants self ∧
  named_parameters (train self) = named_parameters self ∧
  named_parameters (eval self) = named_parameters self.
Proof.
  rewrite train_with_mode, eval_with_mode.
  destruct (with_mode_descendants true self) as [Ht Htn].
  destruct (with_mode_descendants false self) as [He Hen].
  by rewrite !with_mode_named_parameters.
Qed.

(** X14: the last of [train] and [eval] wins: [eval] after [train] is
    [eval], [train] after [eval] is [train], and each is idempotent. *)
Theorem train_eval_compose (self : PyModule P) :
  eval (train self) = eval self ∧ train (eval self) = train self ∧
  train (train self) = train self ∧ eval (eval self) = eval self.
Proof.
  rewrite ?train_with_mode, ?eval_with_mode, ?train_with_mode, ?eval_with_mode.
  by rewrite !with_mode_twice.
Qed.

(** X15: [parameters] returns the parameters of [named_parameters], in the
    same order. *)
Theorem parameters_named_parameters (self : PyModule P) :
  parameters self = (named_parameters self).*2.
Proof.
  induction self as [n ms ps t IH] using PyModule_tree_ind.
  rewrite parameters_eq, named_parameters_eq.
  cbn [_modules _parameters]. rewrite fmap_app. f_equal.
  induction IH as [|km ms Hkm _ IHms]; [done|]. rewrite !fmap_cons.
  cbn [mjoin list_join]. rewrite fmap_app. f_equal; [|exact IHms].
  rewrite Hkm, <-list_fmap_compose. done.
Qed.

(** *** The two dicts *)

Lemma dict_get_set_eq {A : Type} (d : list (string * A)) (k : string) (v : A) :
  dict_get (dict_set d k v) k = Some v.
Proof.
  induction d as [|[k' v'] d IH]; simpl.
  - by rewrite decide_True.
  - case_decide; simpl; [by rewrite decide_True|by rewrite decide_False].
Qed.

Lemma dict_get_set_ne {A : Type} (d : list (string * A)) (k k' : string) (v : A) :
  k' ≠ k → dict_get (dict_set d k v) k' = dict_get d k'.
Proof.
  intros Hne. induction d as [|[k0 v0] d IH]; simpl.
  - by rewrite decide_False.
  - case_decide as Hk0; simpl.
    + subst k0. by rewrite !decide_False.
    + case_decide; [done|apply IH].
Qed.


(** X16: assigning a Parameter to a name makes [__getattr__] of that name
    return it; assigning a Module makes it return the Module unless a
    Parameter of that name exists, which is then still returned; other names
    are not affected; and a name in neither dict gives [None], not an
    error. *)
Theorem setattr_getattr (self : PyModule P) (key key' : string) (p : P)
    (m : PyModule P) (val : attr_value P) :
  getattr (setattr self key (AParameter p)) key = Some (AParameter p) ∧
  getattr (setattr self key (AModule m)) key
  = Some (match dict_get (_parameters self) key with
          | Some p' => AParameter p'
          | None => AModule m
          end) ∧
  (key' ≠ key → getattr (setattr self key val) key' = getattr self key') ∧
  (getattr self key = None ↔
   dict_get (_parameters self) key = None ∧ dict_get (_modules self) key = None).
Proof.
  unfold getattr, setattr. split_and!.
  - cbn [_parameters]. by rewrite dict_get_set_eq.
  - cbn [_parameters _modules]. rewrite dict_get_set_eq.
    by destruct (dict_get (_parameters self) key).
  - intros Hne. destruct val; cbn [_parameters _modules];
      by rewrite dict_get_set_ne.
  - destruct (dict_get (_parameters self) key), (dict_get (_modules self) key);
      split; (done || by intros [??]).
Qed.

(** *** Names of the parameters *)

Lemma has_dot_app (a b : string) : has_dot (a +:+ b) = has_dot a || has_dot b.
Proof. induction a as [|c a IH]; simpl; [done|]. by rewrite IH, orb_assoc. Qed.

Lemma dotted_inj (k1 k2 n1 n2 : string) :
  has_dot k1 = false → has_dot k2 = false →
  k1 +:+ "." +:+ n1 = k2 +:+ "." +:+ n2 → k1 = k2 ∧ n1 = n2.
Proof.
  revert k2. induction k1 as [|c k1 IH]; intros [|c2 k2]; simpl;
    intros H1 H2 Heq.
  - injection Heq as Heq. simpl in Heq. by subst.
  - injection Heq as Hc _. subst c2. by apply orb_false_iff in H2 as [H2 _].
  - injection Heq as Hc _. subst c. by apply orb_false_iff in H1 as [H1 _].
  - injection Heq as Hc Heq. subst c2.
    apply orb_false_iff in H1 as [_ H1]. apply orb_false_iff in H2 as [_ H2].
    by destruct (IH k2 H1 H2 Heq) as [-> ->].
Qed.

Lemma dicts_ok_children (ms : list (string * PyModule P)) :
  foldr (λ (nm : string * PyModule P) (acc : Prop), dicts_ok nm.2 ∧ acc) True ms →
  Forall (λ km, dicts_ok km.2) ms.
Proof. induction ms as [|km ms IH]; [done|]. intros [??]. constructor; auto. Qed.

Lemma all_keys_child (self : PyModule P) (km : string * PyModule P) (k : string) :
  km ∈ _modules self → k ∈ all_keys km.2 → k ∈ all_keys self.
Proof.
  destruct self as [n ms ps t]. cbn [all_keys _modules _parameters].
  intros Hkm Hk. rewrite !elem_of_app. right. right.
  apply list_elem_of_join. exists (all_keys km.2). split; [done|].
  apply list_elem_of_fmap. by exists km.
Qed.

Lemma all_keys_own (self : PyModule P) (k : string) :
  k ∈ (_parameters self).*1 ∨ k ∈ (_modules self).*1 → k ∈ all_keys self.
Proof.
  destruct self as [n ms ps t]. cbn [all_keys _modules _parameters].
  rewrite !elem_of_app. tauto.
Qed.

(** The names that [named_parameters] takes from the submodules. *)
Lemma child_names_elem (ms : list (string * PyModule P)) (y : string) :
  y ∈ (mjoin ((λ nm : string * PyModule P,
                 (λ np : string * P, (nm.1 +:+ "." +:+ np.1, np.2))
                   <$> named_parameters nm.2) <$> ms)).*1 →
  ∃ km n, km ∈ ms ∧ n ∈ (named_parameters km.2).*1 ∧ y = km.1 +:+ "." +:+ n.
Proof.
  intros ([y' p] & -> & Hy)%list_elem_of_fmap.
  apply list_elem_of_join in Hy as (l & Hy & Hl).
  apply list_elem_of_fmap in Hl as (km & -> & Hkm).
  apply list_elem_of_fmap in Hy as ([n q] & [= -> ->] & Hn).
  exists km, n. split_and!; [done| |done].
  apply list_elem_of_fmap. by exists (n, q).
Qed.

(** X17: when no dict of the tree holds a key twice and no key contains a
    dot, the names returned by [named_parameters] are pairwise distinct. *)
Theorem named_parameters_unique (self : PyModule P) :
  dicts_ok self →
  (∀ k, k ∈ all_keys self → has_dot k = false) →
  NoDup (named_parameters self).*1.
Proof.
  induction self as [n ms ps t IH] using PyModule_tree_ind.
  intros Hok Hkeys. rewrite named_parameters_eq.
  cbn [_modules _parameters]. cbn [dicts_ok _modules _parameters] in Hok.
  destruct Hok as (Hps & Hms & Hchildren%dicts_ok_children).
  rewrite fmap_app. apply NoDup_app. split_and!; [done| |].
  - intros x Hx (km & n' & Hkm & Hn' & ->)%child_names_elem.
    assert (has_dot (km.1 +:+ "." +:+ n') = false) as Hdot.
    { apply Hkeys. apply all_keys_own. by left. }
    rewrite !has_dot_app in Hdot. simpl in Hdot.
    by rewrite orb_true_r in Hdot.
  - assert (∀ km k, km ∈ ms → k ∈ all_keys km.2 → has_dot k = false) as Hsub.
    { intros km k Hkm Hk. apply Hkeys.
      by apply (all_keys_child (mkModule n ms ps t) km). }
    assert (∀ km, km ∈ ms → has_dot km.1 = false) as Hmkeys.
    { intros km Hkm. apply Hkeys. apply all_keys_own. right.
      cbn [_modules]. apply list_elem_of_fmap. by exists km. }
    clear Hkeys Hps.
    induction ms as [|km ms IHms]; [apply NoDup_nil_2|].
    rewrite fmap_cons. cbn [mjoin list_join]. rewrite fmap_app.
    apply Forall_cons in IH as [IHkm IH].
    apply Forall_cons in Hchildren as [Hokkm Hchildren].
    rewrite fmap_cons in Hms. apply NoDup_cons in Hms as [Hfresh Hms].
    apply NoDup_app. split_and!.
    + assert (((λ np : string * P, (km.1 +:+ "." +:+ np.1, np.2))
                 <$> named_parameters km.2).*1
              = (λ n0 : string, km.1 +:+ "." +:+ n0) <$> (named_parameters km.2).*1)
        as -> by (by rewrite <-!list_fmap_compose).
      apply NoDup_fmap_2.
      * intros a b Hab. by apply (inj (String.app km.1)), (inj (String.app ".")) in Hab.
      * apply IHkm; [done|]. intros k Hk. apply (Hsub km); [left|done].
    + intros y Hy (km' & n' & Hkm' & Hn' & ->)%child_names_elem.
      apply list_elem_of_fmap in Hy as ([y' q] & Hyeq & Hy).
      apply list_elem_of_fmap in Hy as ([n0 q0] & [= -> ->] & Hn0).
      simpl in Hyeq.
      apply dotted_inj in Hyeq as [Hk _];
        [|apply Hmkeys; by right|apply Hmkeys; left].
      apply Hfresh. rewrite <-Hk. apply list_elem_of_fmap. by exists km'.
    + apply IHms; [done..| |].
      * intros km' k Hkm'. apply Hsub. by right.
      * intros km' Hkm'. apply Hmkeys. by right.
Qed.
End tree.

Section add_parameter_facts.
Context {V : Type}.
Context (has_requires_grad_ : V → bool) (requires_grad_ : V → V)
        (set_name : V → string → V).

End add_parameter_facts.

(** *** __repr__ *)

Lemma string_app_cons (x : Ascii.ascii) (a b : string) :
  String x a +:+ b = String x (a +:+ b).
Proof. reflexivity. Qed.

Lemma string_app_nil_l (b : string) : "" +:+ b = b.
Proof. reflexivity. Qed.

Lemma string_app_assoc (a b c : string) : (a +:+ b) +:+ c = a +:+ b +:+ c.
Proof.
  induction a as [|x a IH]; [done|]. rewrite !string_app_cons. by f_equal.
Qed.

Lemma string_app_nil_r (a : string) : a +:+ "" = a.
Proof.
  induction a as [|x a IH]; [done|]. rewrite string_app_cons. by f_equal.
Qed.

Lemma split_lines_nonempty (s : string) :
  ∃ first rest, split_lines s = first :: rest.
Proof.
  induction s as [|c s (first & rest & IH)]; cbn [split_lines]; [by eexists _, _|].
  case_decide; [by eexists _, _|]. rewrite IH. by eexists _, _.
Qed.

Lemma join_cons2 (sep line line' : string) (rest : list string) :
  join sep (line :: line' :: rest) = line +:+ sep +:+ join sep (line' :: rest).
Proof. reflexivity. Qed.

Lemma join_split_lines (s : string) : join newline (split_lines s) = s.
Proof.
  induction s as [|c s IH]; [done|]. cbn [split_lines].
  destruct (split_lines_nonempty s) as (first & rest & Hs). rewrite Hs in IH |- *.
  case_decide as Hc.
  - subst c. rewrite join_cons2, IH. reflexivity.
  - destruct rest as [|line rest].
    + cbn [join] in *. by rewrite IH.
    + rewrite join_cons2 in *. rewrite string_app_cons. by rewrite IH.
Qed.

Lemma indent_split_lines (n : nat) (s first : string) (rest : list string) :
  split_lines s = first :: rest →
  indent_after_newlines n s
  = first +:+
    match rest with
    | [] => ""
    | _ => newline +:+ join newline ((λ line, spaces n +:+ line) <$> rest)
    end.
Proof.
  revert first rest. induction s as [|c s IH]; intros first rest;
    cbn [split_lines indent_after_newlines].
  - by intros [= <- <-].
  - destruct (split_lines_nonempty s) as (first' & rest' & Hs). rewrite Hs.
    specialize (IH first' rest' Hs). case_decide as Hc.
    + intros [= <- <-]. subst c. rewrite IH, string_app_nil_l.
      unfold newline at 1. rewrite string_app_cons, string_app_nil_l. f_equal.
      rewrite fmap_cons. destruct rest' as [|line rest'].
      * cbn [join fmap list_fmap]. by rewrite !string_app_nil_r.
      * rewrite fmap_cons, join_cons2, <-fmap_cons.
        by rewrite string_app_assoc.
    + intros [= <- <-]. by rewrite IH, string_app_cons.
Qed.

(** X19: [_addindent(s, numSpaces)] is [s] with [numSpaces] spaces put
    after each newline; a string without a newline is returned as it is. *)
Theorem addindent_indents (s : string) (numSpaces : nat) :
  _addindent s numSpaces = indent_after_newlines numSpaces s ∧
  (newlines s = 0 → _addindent s numSpaces = s).
Proof.
  assert (_addindent s numSpaces = indent_after_newlines numSpaces s) as Heq.
  { unfold _addindent.
    destruct (split_lines_nonempty s) as (first & rest & Hs). rewrite Hs.
    rewrite (indent_split_lines numSpaces s first rest Hs).
    case_decide as Hlen.
    - destruct rest; [|done]. rewrite string_app_nil_r.
      by rewrite <-(join_split_lines s), Hs.
    - by destruct rest. }
  split; [done|]. rewrite Heq. clear Heq.
  induction s as [|c s IH]; cbn [newlines indent_after_newlines]; [done|].
  case_decide; [done|]. intros Hs. by rewrite IH.
Qed.

Lemma newlines_app (a b : string) : newlines (a +:+ b) = newlines a + newlines b.
Proof.
  induction a as [|c a IH]; [done|].
  rewrite string_app_cons. cbn [newlines]. rewrite IH. lia.
Qed.

Lemma newlines_spaces (n : nat) : newlines (spaces n) = 0.
Proof.
  induction n as [|n IH]; [done|]. cbn [spaces newlines].
  by rewrite decide_False.
Qed.

Lemma newlines_indent (n : nat) (s : string) :
  newlines (indent_after_newlines n s) = newlines s.
Proof.
  induction s as [|c s IH]; [done|]. cbn [indent_after_newlines newlines].
  case_decide as Hc; cbn [newlines].
  - rewrite decide_True by done. by rewrite newlines_app, newlines_spaces, IH.
  - rewrite decide_False by done. by rewrite IH.
Qed.

Section repr.
Context {P : Type}.

Lemma names_ok_children (ms : list (string * PyModule P)) :
  foldr (λ (km : string * PyModule P) (acc : Prop),
           newlines km.1 = 0 ∧ names_ok km.2 ∧ acc) True ms →
  Forall (λ km, newlines km.1 = 0 ∧ names_ok km.2) ms.
Proof. induction ms as [|km ms IH]; [done|]. intros (?&?&?). constructor; auto. Qed.

(** X20: when no class name and no key of a submodule holds a newline,
    the text of [__repr__] has one line for each module of the tree and one
    more, the closing line, for each module that has submodules. *)
Theorem repr_lines (self : PyModule P) :
  names_ok self →
  newlines (repr self) + 1
  = length (descendants self)
    + length (filter (λ x, length (_modules x) ≠ 0) (descendants self)).
Proof.
  induction self as [n ms ps t IH] using PyModule_tree_ind.
  intros Hok. cbn [names_ok class_name _modules] in Hok.
  destruct Hok as [Hn Hms%names_ok_children].
  cbn [repr descendants class_name _modules]. rewrite filter_cons.
  cbn [_modules length].
  destruct ms as [|km ms].
  { rewrite decide_True by done. rewrite decide_False by (simpl; lia).
    rewrite newlines_app, Hn. done. }
  rewrite (decide_False (P := length (km :: ms) = 0)) by done.
  rewrite (decide_False (P := _ = [])) by done.
  rewrite decide_True by (simpl; lia).
  set (line := λ km : string * PyModule P,
                 "(" +:+ km.1 +:+ "): " +:+ _addindent (repr km.2) 2).
  set (desc := λ nm : string * PyModule P, descendants nm.2).
  assert (∀ l : list (string * PyModule P),
            l ≠ [] →
            Forall (λ km, names_ok km.2 →
                          newlines (repr km.2) + 1
                          = length (descendants km.2)
                            + length (filter (λ x, length (_modules x) ≠ 0)
                                        (descendants km.2))) l →
            Forall (λ km, newlines km.1 = 0 ∧ names_ok km.2) l →
            newlines (join (newline +:+ "  ") (line <$> l)) + 1
            = length (mjoin (desc <$> l))
              + length (filter (λ x, length (_modules x) ≠ 0) (mjoin (desc <$> l))))
    as Hjoin.
  { clear. intros l Hl HIH Hnames.
    induction l as [|km l IHl]; [done|].
    apply Forall_cons in HIH as [Hkm HIH].
    apply Forall_cons in Hnames as [[Hkey Hokkm] Hnames].
    assert (newlines (line km) = newlines (repr km.2)) as Hline.
    { unfold line. rewrite !newlines_app, Hkey.
      destruct (addindent_indents (repr km.2) 2) as [-> _].
      rewrite newlines_indent. done. }
    rewrite !fmap_cons. cbn [mjoin list_join]. rewrite filter_app, !length_app.
    specialize (Hkm Hokkm). unfold desc in *. cbn beta. destruct l as [|km' l].
    - rewrite !fmap_nil. cbn [join mjoin list_join].
      rewrite filter_nil. cbn [length]. rewrite Hline. lia.
    - specialize (IHl ltac:(done) HIH Hnames).
      rewrite (fmap_cons line), join_cons2, <-(fmap_cons line).
      rewrite !newlines_app, Hline.
      change (newlines newline) with 1. change (newlines "  ") with 0.
      assert (∀ a j d f d' f', a + 1 = d + f → j + 1 = d' + f' →
                a + (1 + 0 + j) + 1 = d + d' + (f + f')) as Harith by lia.
      by apply Harith. }
  specialize (Hjoin (km :: ms) ltac:(done) IH Hms).
  rewrite !newlines_app, Hn.
  change (newlines newline) with 1. change (newlines "  ") with 0.
  change (newlines "(") with 0. change (newlines ")") with 0.
  cbn [length]. lia.
Qed.
End repr.
End ModuleTreeFacts.

Lemma named_parameters_unique_witness :
  NoDup (ModuleTree.named_parameters ModuleExamples.tree).*1.
Proof.
  apply (ModuleTreeFacts.named_parameters_unique ModuleExamples.tree).
  - vm_compute. repeat split; repeat constructor; set_solver.
  - intros k Hk. vm_compute in Hk. set_unfold.
    repeat destruct Hk as [->|Hk]; (done || by destruct Hk).
Defined.

Lemma repr_lines_witness :
  ModuleTree.newlines (ModuleTree.repr ModuleExamples.tree) + 1
  = length (ModuleTree.descendants ModuleExamples.tree)
    + length (filter (λ x, length (ModuleTree._modules x) ≠ 0)
                (ModuleTree.descendants ModuleExamples.tree)).
Proof.
  apply (ModuleTreeFacts.repr_lines ModuleExamples.tree).
  vm_compute. tauto.
Defined.
